(** * Plex.organize: the sorting and upgrading logic of [plex_organize.py]

    A shallow embedding of the decision logic of the script: the term
    normaliser [sortable_term], the quality check
    [check_quality_requirements], the chooser [question], the ordering stage
    of [sort_playlist] and the whole of [upgrade_playlist], followed by the
    properties of these functions.

    Python strings are sequences of Unicode code points, exceptions are an
    error monad, list objects live in a store where aliasing matters, and
    the collaborators (the Plex server, the terminal prompt, the random
    number generator, the Unicode tables of the interpreter and of
    [unidecode]) are explicit arguments. *)

From Stdlib Require Import ZArith NArith Ascii String DecimalString.
From stdpp Require Import base option list gmap strings sorting.

Local Open Scope N_scope.

(** ** Python strings *)

(** A [str] is a sequence of code points. *)
Abbreviation pystr := (list N).

(** Source literals are ASCII, except where noted. *)
Definition lit (s : string) : pystr :=
  map N_of_ascii (list_ascii_of_string s).

(** [str == str], [str < str] and [str <= str]: code point by code point. *)
Definition str_eqb (a b : pystr) : bool := bool_decide (a = b).

Fixpoint str_le (a b : pystr) : bool :=
  match a, b with
  | [], _ => true
  | _ :: _, [] => false
  | x :: a', y :: b' => if x <? y then true else if y <? x then false else str_le a' b'
  end.

(** [a in b] on strings: [a] occurs in [b] as a contiguous run. *)
Fixpoint str_prefix (a b : pystr) : bool :=
  match a, b with
  | [], _ => true
  | _ :: _, [] => false
  | x :: a', y :: b' => (x =? y) && str_prefix a' b'
  end.

Fixpoint str_in (a b : pystr) : bool :=
  str_prefix a b ||
  match b with
  | [] => false
  | _ :: b' => str_in a b'
  end.

(** [str.split(sep)] for a one-character separator: never empty. *)
Fixpoint split (sep : N) (s : pystr) : list pystr :=
  match s with
  | [] => [[]]
  | c :: r =>
      if c =? sep then [] :: split sep r
      else match split sep r with
           | w :: ws => (c :: w) :: ws
           | [] => [[c]]
           end
  end.

(** [sep.join(words)] for a one-character separator. *)
Fixpoint join (sep : N) (ws : list pystr) : pystr :=
  match ws with
  | [] => []
  | [w] => w
  | w :: ws' => w ++ sep :: join sep ws'
  end.

(** [str.replace(old, new)] for a one-character [old]. *)
Definition replace (old : N) (new : pystr) (s : pystr) : pystr :=
  s ≫= (λ c, if c =? old then new else [c]).

(** ** The Unicode tables

    What the interpreter and [unidecode] do on code points outside ASCII is
    a table of theirs, none of which is in the script; on ASCII their
    behaviour is fixed and written out below. *)
Record Unicode := {
  (** [str.lower] on a code point of 128 or more; it may look at the code
      points before it (nearest first) and after it. *)
  lower_ext : pystr → N → pystr → pystr;
  (** [str.casefold] on a code point of 128 or more. *)
  casefold_ext : N → pystr;
  (** the [unidecode] table: the replacement of a code point of 128 or more. *)
  translit : N → pystr;
  (** [str.isspace] on a code point of 128 or more. *)
  isspace_ext : N → bool;
  (** [\w] of [re] on a code point of 128 or more. *)
  isword_ext : N → bool
}.

Definition is_ascii (c : N) : bool := c <? 128.

Definition ascii_lower (c : N) : N :=
  if (65 <=? c) && (c <=? 90) then c + 32 else c.

(** The ASCII code points on which [str.isspace] holds. *)
Definition ascii_space (c : N) : bool :=
  ((9 <=? c) && (c <=? 13)) || ((28 <=? c) && (c <=? 32)).

(** ASCII letters, digits and the underscore: [\w]. *)
Definition ascii_word (c : N) : bool :=
  ((48 <=? c) && (c <=? 57)) || ((65 <=? c) && (c <=? 90))
  || ((97 <=? c) && (c <=? 122)) || (c =? 95).

Section Text.
Variable U : Unicode.

Fixpoint lower_from (before s : pystr) : pystr :=
  match s with
  | [] => []
  | c :: r =>
      (if is_ascii c then [ascii_lower c] else lower_ext U before c r)
      ++ lower_from (c :: before) r
  end.

(** [str.lower()] *)
Definition lower (s : pystr) : pystr := lower_from [] s.

(** [str.casefold()] *)
Definition casefold (s : pystr) : pystr :=
  s ≫= (λ c, if is_ascii c then [ascii_lower c] else casefold_ext U c).

(** [unidecode(s)]: ASCII is kept, the rest is looked up. *)
Definition unidecode (s : pystr) : pystr :=
  s ≫= (λ c, if is_ascii c then [c] else translit U c).

Definition isspace (c : N) : bool :=
  if is_ascii c then ascii_space c else isspace_ext U c.

Definition isword (c : N) : bool :=
  if is_ascii c then ascii_word c else isword_ext U c.

Fixpoint lstrip (s : pystr) : pystr :=
  match s with
  | [] => []
  | c :: r => if isspace c then lstrip r else s
  end.

(** [str.strip()] *)
Definition strip (s : pystr) : pystr :=
  reverse (lstrip (reverse (lstrip s))).

(** [re.sub(r"[^\w\s]", "", s)] *)
Definition strip_symbols (s : pystr) : pystr :=
  filter (λ c, isword c || isspace c) s.
End Text.

(** ** sortable_term *)

Definition articles : list pystr :=
  map lit
    [ (* German *) "die"; "der"; "das"; "ein"; "eine";
      (* English *) "the"; "a"; "an";
      (* Spanish *) "el"; "la"; "los"; "las"; "un"; "una"; "unos"; "unas";
      (* French *) "le"; "la"; "les"; "un"; "une"; "des";
      (* Italian *) "il"; "lo"; "la"; "i"; "gli"; "un"; "una"; "uno" ]%string.

(** The character class of the [re.sub] of [sortable_term]. Its ASCII members
    are the asterisk, full stop, colon, comma, semicolon, both quotes, both
    slashes, [! ? $ ( ) = + # < > |] and the backquote; the others are the
    code points of the typographic signs as the file has them. *)
Definition removed_chars : list N :=
  lit "*.:,;'/\!?$()=+#<>|`"%string
  ++ [ 34 (* the double quote *);
       8218; 196; 182; 242; 250; 172; 176; 248; 165 ].

Definition is_removed (c : N) : bool := bool_decide (c ∈ removed_chars).

(** [len(words) > 1 and words[0] in articles] *)
Definition strips_article (term : pystr) : bool :=
  let words := split 32 term in
  bool_decide (1 < length words)%nat && bool_decide (hd [] words ∈ articles).

(** [words.pop(0)] and [" ".join(words)], when the condition holds. *)
Definition drop_article (term : pystr) : pystr :=
  if strips_article term then join 32 (tail (split 32 term)) else term.

(** The last three statements of [sortable_term]. *)
Definition finish_term (U : Unicode) (term : pystr) : pystr :=
  strip U (filter (λ c, negb (is_removed c)) (replace 38 (lit "and") term)).

Definition sortable_str (U : Unicode) (term : pystr) : pystr :=
  let term := unidecode U (lower U term) in
  let term := drop_article term in
  let term := replace 38 (lit "and") term in
  let term := filter (λ c, negb (is_removed c)) term in
  strip U term.

(** ** Values and exceptions *)

(** [str(n)] and [format(n, "0wd")] for an [int]. *)
Definition str_of_int (z : Z) : pystr :=
  lit (NilZero.string_of_int (Z.to_int z)).

Definition zero_pad (w : nat) (z : Z) : pystr :=
  let s := str_of_int z in
  if bool_decide (0 <= z)%Z then replicate (w - length s) 48 ++ s else
  match s with
  | sign :: digits => sign :: replicate (w - length s) 48 ++ digits
  | [] => s
  end.

(** A [datetime.datetime] without time zone, as [plexapi] builds them. *)
Record datetime := {
  year : Z; month : Z; day : Z;
  hour : Z; minute : Z; second : Z; microsecond : Z
}.

Global Instance datetime_eq_dec : EqDecision datetime := ltac:(solve_decision).

Definition date_fields (d : datetime) : list Z :=
  [year d; month d; day d; hour d; minute d; second d; microsecond d].

(** [d.isoformat(sep)] *)
Definition isoformat_sep (sep : N) (d : datetime) : pystr :=
  zero_pad 4 (year d) ++ lit "-" ++ zero_pad 2 (month d) ++ lit "-"
  ++ zero_pad 2 (day d) ++ [sep] ++ zero_pad 2 (hour d) ++ lit ":"
  ++ zero_pad 2 (minute d) ++ lit ":" ++ zero_pad 2 (second d)
  ++ (if bool_decide (microsecond d = 0%Z) then []
      else lit "." ++ zero_pad 6 (microsecond d)).

Definition isoformat : datetime → pystr := isoformat_sep 84.

(** The values the attributes of a media item hold. *)
Inductive pyval :=
  | VNone
  | VStr (s : pystr)
  | VInt (z : Z)
  | VDatetime (d : datetime).

Global Instance pyval_eq_dec : EqDecision pyval := ltac:(solve_decision).

(** The exceptions the script can meet; it defines none of its own. *)
Inductive exn :=
  | AttributeError
  | TypeError
  | IndexError
  | NotFound
  | BadRequest
  | SystemExit.

Global Instance exn_eq_dec : EqDecision exn := ltac:(solve_decision).

(** The name of the class of an exception. *)
Definition exn_name (e : exn) : string :=
  match e with
  | AttributeError => "AttributeError"
  | TypeError => "TypeError"
  | IndexError => "IndexError"
  | NotFound => "NotFound"
  | BadRequest => "BadRequest"
  | SystemExit => "SystemExit"
  end.

Inductive result (A : Type) :=
  | Ok (a : A)
  | Raise (e : exn).
Global Arguments Ok {A} a.
Global Arguments Raise {A} e.

Global Instance result_eq_dec {A} `{EqDecision A} : EqDecision (result A) :=
  ltac:(solve_decision).

Global Instance result_ret : MRet result := λ A, Ok.
Global Instance result_bind : MBind result := λ A B f m,
  match m with
  | Ok a => f a
  | Raise e => Raise e
  end.

(** A comprehension [[f(x) for x in xs]] stops at the first exception. *)
Fixpoint map_r {A B} (f : A → result B) (xs : list A) : result (list B) :=
  match xs with
  | [] => Ok []
  | x :: xs' => y ← f x; ys ← map_r f xs'; Ok (y :: ys)
  end.

(** [[x for x in xs if p(x)]] *)
Fixpoint filter_r {A} (p : A → result bool) (xs : list A) : result (list A) :=
  match xs with
  | [] => Ok []
  | x :: xs' => b ← p x; ys ← filter_r p xs'; Ok (if b : bool then x :: ys else ys)
  end.

(** [bool(v)] *)
Definition truthy (v : pyval) : bool :=
  match v with
  | VNone => false
  | VStr s => negb (bool_decide (s = []))
  | VInt z => negb (bool_decide (z = 0%Z))
  | VDatetime _ => true
  end.

(** [str(v)], as an f-string renders [v]. *)
Definition py_str (v : pyval) : pystr :=
  match v with
  | VNone => lit "None"
  | VStr s => s
  | VInt z => str_of_int z
  | VDatetime d => isoformat_sep 32 d
  end.

(** [a == b] never raises; values of different types differ. *)
Definition py_eq (a b : pyval) : bool := bool_decide (a = b).

(** [a <= b] where both have the same ordered type. *)
Fixpoint lex_le (a b : list Z) : bool :=
  match a, b with
  | [], _ => true
  | _ :: _, [] => false
  | x :: a', y :: b' =>
      if (x <? y)%Z then true else if (y <? x)%Z then false else lex_le a' b'
  end.

Definition py_le (a b : pyval) : bool :=
  match a, b with
  | VStr s, VStr t => str_le s t
  | VInt x, VInt y => (x <=? y)%Z
  | VDatetime d, VDatetime e => lex_le (date_fields d) (date_fields e)
  | _, _ => false
  end.

(** [a < b]: a [TypeError] unless both are of one ordered type. *)
Definition py_lt (a b : pyval) : result bool :=
  match a, b with
  | VStr _, VStr _ | VInt _, VInt _ | VDatetime _, VDatetime _ =>
      Ok (negb (py_le b a))
  | _, _ => Raise TypeError
  end.

(** ** sorted

    [sorted(xs, key=f, reverse=r)] computes every key first, then sorts
    stably on the keys with [<]; with [reverse] it reverses the list, sorts
    and reverses again, which keeps equal keys in their original order. *)
Fixpoint insert_by {A} (le : A → A → bool) (x : A) (l : list A) : list A :=
  match l with
  | [] => [x]
  | y :: l' => if le x y then x :: l else y :: insert_by le x l'
  end.

Fixpoint stable_sort {A} (le : A → A → bool) (l : list A) : list A :=
  match l with
  | [] => []
  | x :: l' => insert_by le x (stable_sort le l')
  end.

Definition sort_with {A} (le : A → A → bool) (rev : bool) (l : list A) : list A :=
  if rev then reverse (stable_sort le (reverse l)) else stable_sort le l.

Definition on_key {K A} (le : K → K → bool) (a b : K * A) : bool := le a.1 b.1.

(** Keys can be compared when they are all of one ordered type. *)
Definition is_str (v : pyval) : bool := if v is VStr _ then true else false.
Definition is_int (v : pyval) : bool := if v is VInt _ then true else false.
Definition is_datetime (v : pyval) : bool := if v is VDatetime _ then true else false.

Definition comparable (ks : list pyval) : bool :=
  forallb is_str ks || forallb is_int ks || forallb is_datetime ks.

Definition py_sorted {A} (key : A → result pyval) (rev : bool) (xs : list A)
    : result (list A) :=
  ks ← map_r key xs;
  if comparable ks || bool_decide (length ks ≤ 1)%nat
  then Ok ((sort_with (on_key py_le) rev (zip ks xs)).*2)
  else Raise TypeError.

(** ** Media items *)

(** One entry of [item.media]. *)
Record Media := {
  audioCodec : pyval;
  bitrate : pyval;
  duration : pyval
}.

(** A track or a video: its attributes by name, its media and the title of
    the album [item.album()] fetches. *)
Record Item := {
  attrs : gmap string pyval;
  media : list Media;
  album_title : pyval
}.

(** [getattr(item, name)] *)
Definition getattr (item : Item) (name : string) : result pyval :=
  match attrs item !! name with
  | Some v => Ok v
  | None => Raise AttributeError
  end.

(** [item.media[0]] *)
Definition media0 (item : Item) : result Media :=
  match media item with
  | m :: _ => Ok m
  | [] => Raise IndexError
  end.

(** [v.casefold()], [v.lower()] and the like exist on strings only. *)
Definition as_str (v : pyval) : result pystr :=
  match v with
  | VStr s => Ok s
  | _ => Raise AttributeError
  end.

(** [re.sub(pattern, "", v)] wants a string. *)
Definition as_text (v : pyval) : result pystr :=
  match v with
  | VStr s => Ok s
  | _ => Raise TypeError
  end.

Definition duration_to_str (duration : pyval) : result pystr :=
  match duration with
  | VInt d =>
      let seconds := (d / 1000)%Z in
      let minutes := (seconds / 60)%Z in
      let seconds := (seconds mod 60)%Z in
      Ok (zero_pad 2 minutes ++ lit ":" ++ zero_pad 2 seconds)
  | _ => Raise TypeError
  end.

(** [item.originalTitle or item.grandparentTitle] *)
Definition artist (item : Item) : result pyval :=
  a ← getattr item "originalTitle";
  if truthy a then Ok a else getattr item "grandparentTitle".

Definition audio_to_str (item : Item) : result pystr :=
  a ← artist item;
  t ← getattr item "title";
  m ← media0 item;
  d ← duration_to_str (duration m);
  Ok (py_str a ++ lit " - " ++ py_str t ++ lit " (" ++ py_str (album_title item)
      ++ lit ") [" ++ d ++ lit "][" ++ py_str (audioCodec m) ++ lit "]["
      ++ py_str (bitrate m) ++ lit "]").

Definition sortable_term (U : Unicode) (term : pyval) : result pystr :=
  match term with
  | VDatetime d => Ok (isoformat d)
  | VStr s => Ok (sortable_str U s)
  | _ => Raise AttributeError
  end.

(** ** check_quality_requirements *)

(** [config.get(key)]: the configured string, or [None]. *)
Definition config_get (config : gmap string pystr) (key : string) : pyval :=
  match config !! key with
  | Some s => VStr s
  | None => VNone
  end.

Definition check_quality_requirements (config : gmap string pystr) (item : Item)
    : result bool :=
  if truthy (config_get config "upgrade.force_all") then Ok false
  else if truthy (config_get config "upgrade.force_lossless") then
    m ← media0 item;
    Ok (bool_decide (audioCodec m ∈ [VStr (lit "alac"); VStr (lit "flac")]))
  else
    m ← media0 item;
    low_mp3 ← (if py_eq (audioCodec m) (VStr (lit "mp3"))
               then py_lt (bitrate m) (VInt 320) else Ok false);
    if low_mp3 : bool then Ok false
    else
      low_aac ← (if py_eq (audioCodec m) (VStr (lit "aac"))
                 then py_lt (bitrate m) (VInt 256) else Ok false);
      Ok (negb low_aac).

(** ** The ordering stage of sort_playlist

    [playlist.items()] hands over a list object; the heap holds the list
    objects and [l] is the one [items] refers to. *)

(** [x[i], x[j] = x[j], x[i]] *)
Definition swap {A} (l : list A) (i j : nat) : list A :=
  match l !! i, l !! j with
  | Some x, Some y => <[i:=y]> (<[j:=x]> l)
  | _, _ => l
  end.

(** [random.shuffle(x)]: for [i] from [len(x) - 1] down to [1], swap [x[i]]
    with [x[j]] for a drawn [j] below [i + 1]; [rng i] is the number drawn
    at [i]. *)
Fixpoint shuffle_from {A} (rng : nat → nat) (i : nat) (l : list A) : list A :=
  match i with
  | O => l
  | S i' => shuffle_from rng i' (swap l i (rng i mod S i))
  end.

Definition shuffle {A} (rng : nat → nat) (l : list A) : list A :=
  shuffle_from rng (length l - 1) l.

(** The [key] function of both calls of [sorted]. *)
Definition sort_value (U : Unicode) (key backup : string) (x : Item) : result pyval :=
  v ← getattr x key;
  if bool_decide (v ≠ VNone)
  then v ← getattr x key; s ← sortable_term U v; Ok (VStr s)
  else b ← getattr x backup; s ← sortable_term U b; Ok (VStr s).

(** Lines 649 to 672: [items] comes back as the list object it refers to
    afterwards. [sorted] builds a new list object each time; [random.shuffle]
    works on the one it is given. *)
Definition sort_playlist_items (U : Unicode) (rng : nat → nat)
    (playlistType : pystr)
    (sort_key backup_sort_key secondary_sort_key backup_secondary_sort_key : string)
    (sort_reverse : bool) (heap : list (list Item)) (l : nat)
    : result (list (list Item) * nat) :=
  match heap !! l with
  | None => Ok (heap, l)
  | Some items =>
      if bool_decide (sort_key = "shuffle") then
        Ok (<[l := shuffle rng items]> heap, l)
      else
        '(heap, items) ←
          (if bool_decide (secondary_sort_key ≠ "")
              && bool_decide (playlistType = lit "audio")
           then
             sorted1 ← py_sorted (sort_value U secondary_sort_key backup_secondary_sort_key)
                         sort_reverse items;
             Ok (heap ++ [sorted1], sorted1)
           else Ok (heap, items));
        sorted2 ← py_sorted (sort_value U sort_key backup_sort_key) sort_reverse items;
        Ok (heap ++ [sorted2], length heap)
  end.

(** ** The collaborators of upgrade_playlist *)

Record Playlist := {
  pl_title : pystr;
  pl_summary : pyval;
  pl_type : pystr;
  pl_items : list Item
}.

(** The calls made to the server and to the terminal. *)
Inductive event :=
  | Searched (title artist : pystr)
  | Prompted (message : pystr) (choices : list pystr)
  | Created (playlist : Playlist)
  | ItemsRemoved (playlist : nat) (items : list Item)
  | ItemsAdded (playlist : nat) (items : list Item).

(** The playlists of the server, by number, and the calls made so far. *)
Record World := {
  playlists : list Playlist;
  calls : list event
}.

(** What the library search and the person at the terminal answer. *)
Record Answers := {
  search : pystr → pystr → list Item;
  choose : pystr → list pystr → pystr
}.

(** A statement changes the world and returns or raises; what was done
    before an exception stays done. *)
Definition M (A : Type) : Type := World → result A * World.

Definition ret {A} (a : A) : M A := λ w, (Ok a, w).
Definition raise {A} (e : exn) : M A := λ w, (Raise e, w).
Definition bind {A B} (m : M A) (k : A → M B) : M B := λ w,
  match m w with
  | (Ok a, w') => k a w'
  | (Raise e, w') => (Raise e, w')
  end.
Definition lift {A} (r : result A) : M A := λ w, (r, w).
Definition call (e : event) : M unit := λ w,
  (Ok (), {| playlists := playlists w; calls := calls w ++ [e] |}).

Notation "x <- m ;; k" := (bind m (λ x, k))
  (at level 100, m at next level, right associativity, only parsing).
Notation "m ;;; k" := (bind m (λ _, k))
  (at level 100, right associativity, only parsing).

(** [print(f"... {e} ...")]: [e] is evaluated; the text is not kept. *)
Definition print {A} (e : result A) : M unit := _ <- lift e;; ret ().

(** [playlist.items()] *)
Definition playlist_items (id : nat) : M (list Item) := λ w,
  match playlists w !! id with
  | Some p => (Ok (pl_items p), w)
  | None => (Raise NotFound, w)
  end.

Definition set_items (id : nat) (items : list Item) : M unit := λ w,
  match playlists w !! id with
  | Some p =>
      (Ok (), {| playlists := <[id := {| pl_title := pl_title p; pl_summary := pl_summary p;
                                         pl_type := pl_type p; pl_items := items |}]>
                                (playlists w);
                 calls := calls w |})
  | None => (Raise NotFound, w)
  end.

(** What [Playlist.create] makes of its arguments [p]: for a regular
    playlist [plexapi] passes on the title and the items alone, with the
    [listType] of the first item as the kind of the playlist. The summary
    and the type that were given are dropped; the server gives the new
    playlist an empty summary. *)
Definition created (p : Playlist) (listType : pyval) : Playlist :=
  {| pl_title := pl_title p; pl_summary := VStr []; pl_type := py_str listType;
     pl_items := pl_items p |}.

(** [Playlist.create(server, title, summary, items, playlistType)]: without
    items it is a [BadRequest]; the first item is asked for its [listType]
    and every item for its [ratingKey] before the server is called. *)
Definition playlist_create (p : Playlist) : M nat :=
  match pl_items p with
  | [] => raise BadRequest
  | first :: _ =>
      listType <- lift (getattr first "listType");;
      _ <- lift (map_r (λ item, getattr item "ratingKey") (pl_items p));;
      λ w, (Ok (length (playlists w)),
            {| playlists := playlists w ++ [created p listType];
               calls := calls w ++ [Created (created p listType)] |})
  end.

(** Two items are one track when their [ratingKey] agrees. *)
Definition same_track (a b : Item) : bool :=
  bool_decide (attrs a !! "ratingKey" = attrs b !! "ratingKey").

Fixpoint remove_first (x : Item) (l : list Item) : option (list Item) :=
  match l with
  | [] => None
  | y :: l' => if same_track y x then Some l' else cons y <$> remove_first x l'
  end.

Fixpoint remove_each (id : nat) (items : list Item) : M unit :=
  match items with
  | [] => ret ()
  | x :: items' =>
      current <- playlist_items id;;
      match remove_first x current with
      | Some rest => set_items id rest ;;; remove_each id items'
      | None => raise NotFound
      end
  end.

(** [playlist.removeItems(items)]: each item leaves the playlist, the first
    entry that is that track. *)
Definition removeItems (id : nat) (items : list Item) : M unit :=
  call (ItemsRemoved id items) ;;; remove_each id items.

(** [playlist.addItems(items)]: the items are appended. *)
Definition addItems (id : nat) (items : list Item) : M unit :=
  call (ItemsAdded id items) ;;;
  current <- playlist_items id;;
  set_items id (current ++ items).

(** ** question *)

(** The last choice of every prompt, as the file has it. *)
Definition abort_choice : pystr := [8218; 249; 229] ++ lit " Abort".

(** [next((item for item in items if p(item)), None)] *)
Fixpoint first_r {A} (p : A → result bool) (items : list A) : result (option A) :=
  match items with
  | [] => Ok None
  | x :: items' => b ← p x; if b : bool then Ok (Some x) else first_r p items'
  end.

Section Question.
Variable answers : Answers.

(** [inquirer.prompt] with one list question. *)
Definition prompt (message : pystr) (choices : list pystr) : M pystr :=
  call (Prompted message choices) ;;; ret (choose answers message choices).

(** [object_to_string(item, attr)] is [to_string]; the result [None] of
    Python is [None] here. *)
Definition question {A} (message : pystr) (items : list A)
    (to_string : A → result pystr) (none_choice : bool) : M (option A) :=
  match items with
  | [only] => ret (Some only)
  | _ =>
      labels <- lift (map_r to_string items);;
      let choices :=
        (if none_choice then [lit "None"] else []) ++ labels ++ [abort_choice] in
      let message :=
        if bool_decide (message = []) then lit "What do you want to do?" else message in
      answer <- prompt message choices;;
      if str_eqb answer abort_choice then raise SystemExit
      else lift (first_r (λ item, s ← to_string item; Ok (str_eqb s answer)) items)
  end.
End Question.

(** ** upgrade_playlist *)

(** [items_to_remove], [items_to_add] and [items_ommited]. *)
Record Lists := {
  items_to_remove : list Item;
  items_to_add : list Item;
  items_ommited : list Item
}.

Definition replaced (item replacement : Item) (ls : Lists) : Lists :=
  {| items_to_remove := items_to_remove ls ++ [item];
     items_to_add := items_to_add ls ++ [replacement];
     items_ommited := items_ommited ls |}.

Definition ommited (item : Item) (ls : Lists) : Lists :=
  {| items_to_remove := items_to_remove ls;
     items_to_add := items_to_add ls;
     items_ommited := items_ommited ls ++ [item] |}.

Section Upgrade.
Variable U : Unicode.
Variable config : gmap string pystr.
Variable answers : Answers.

(** [server.library.search(title=..., artist=..., libtype="track")] *)
Definition library_search (item : Item) : M (list Item) :=
  t <- lift (getattr item "title" ≫= as_text);;
  a <- lift (artist item ≫= as_text);;
  let title := strip_symbols U t in
  let artist := strip_symbols U a in
  call (Searched title artist) ;;; ret (search answers title artist).

(** [r.media[0].bitrate and r.media[0].bitrate > item.media[0].bitrate] *)
Definition higher_bitrate (item r : Item) : result bool :=
  m ← media0 r;
  if truthy (bitrate m) then
    m ← media0 r; mi ← media0 item; py_lt (bitrate mi) (bitrate m)
  else Ok false.

(** [artist(item).casefold() in artist(r).casefold()] *)
Definition artist_within (item r : Item) : result bool :=
  a ← artist item ≫= as_str;
  b ← artist r ≫= as_str;
  Ok (str_in (casefold U a) (casefold U b)).

(** The key of the first [sorted]. *)
Definition artist_key (x : Item) : result pyval :=
  v ← getattr x "originalTitle";
  if bool_decide (v ≠ VNone) then getattr x "originalTitle"
  else getattr x "grandparentTitle".

(** The key of the second [sorted]. *)
Definition bitrate_key (x : Item) : result pyval :=
  m ← media0 x; Ok (bitrate m).

(** Lines 782 to 791: both calls of [sorted]. *)
Definition rank_replacements (replacements : list Item) : result (list Item) :=
  replacements ← py_sorted artist_key false replacements;
  py_sorted bitrate_key true replacements.

(** Lines 768 to 791: the replacements of one track, best first. *)
Definition find_replacements (item : Item) : M (list Item) :=
  search_results <- library_search item;;
  replacements <- lift (filter_r (higher_bitrate item) search_results);;
  replacements <- lift (filter_r (artist_within item) replacements);;
  lift (rank_replacements replacements).

(** The body of the loop over the items of the playlist. *)
Definition upgrade_item (simple_mode : bool) (item : Item) (ls : Lists) : M Lists :=
  good <- lift (check_quality_requirements config item);;
  if good : bool then print (audio_to_str item) ;;; ret ls
  else
    print (audio_to_str item) ;;;
    replacements <- find_replacements item;;
    match replacements with
    | [] => ret (ommited item ls)
    | best :: _ =>
        if simple_mode then
          print (audio_to_str best) ;;; ret (replaced item best ls)
        else
          label <- lift (audio_to_str item);;
          replacement <-
            question answers
              (lit "Select a replacement track for " ++ [34] ++ label ++ [34])
              replacements audio_to_str true;;
          match replacement with
          | Some r =>
              let ls := replaced item r ls in
              print (audio_to_str r) ;;; ret ls
          | None => ret (ommited item ls)
          end
    end.

Fixpoint upgrade_items (simple_mode : bool) (items : list Item) (ls : Lists) : M Lists :=
  match items with
  | [] => ret ls
  | item :: items' =>
      ls <- upgrade_item simple_mode item ls;;
      upgrade_items simple_mode items' ls
  end.

Fixpoint print_all (items : list Item) : M unit :=
  match items with
  | [] => ret ()
  | item :: items' => print (audio_to_str item) ;;; print_all items'
  end.

(** The playlist comes and goes as its number on the server. *)
Definition upgrade_playlist (playlist : nat) (duplicate simple_mode dry : bool) : M nat :=
  items <- playlist_items playlist;;
  target <-
    (if duplicate && negb dry then
       old <- (λ w, (from_option Ok (Raise NotFound) (playlists w !! playlist), w));;
       new_playlist <- playlist_create
         {| pl_title := lit "Copy of " ++ pl_title old; pl_summary := pl_summary old;
            pl_type := pl_type old; pl_items := items |};;
       items <- playlist_items new_playlist;;
       ret (new_playlist, items)
     else ret (playlist, items));;
  let '(playlist, items) := target in
  ls <- upgrade_items simple_mode items
          {| items_to_remove := []; items_to_add := []; items_ommited := [] |};;
  (if negb dry then
     (if bool_decide (items_to_remove ls ≠ [])
      then removeItems playlist (items_to_remove ls) ;;; print_all (items_to_remove ls)
      else ret ()) ;;;
     (if bool_decide (items_to_add ls ≠ [])
      then addItems playlist (items_to_add ls) ;;; print_all (items_to_add ls)
      else ret ()) ;;;
     (if bool_decide (items_ommited ls ≠ [])
      then print_all (items_ommited ls)
      else ret ())
   else ret ()) ;;;
  ret playlist.
End Upgrade.

(** ** Notions the statements use *)

(** The value [sort_value] gives, where it gives one. *)
Definition sort_term (U : Unicode) (key backup : string) (x : Item) : pystr :=
  match sort_value U key backup x with
  | Ok (VStr s) => s
  | _ => []
  end.

(** The text an item is compared on, as the specification words it: the
    field [key] if it is present, else the field [fallbackKey]; it is
    there where the field read is a string. *)
Definition resolved_text (key fallbackKey : string) (x : Item) : option pystr :=
  match attrs x !! key with
  | Some (VStr s) => Some s
  | Some VNone =>
      match attrs x !! fallbackKey with
      | Some (VStr s) => Some s
      | _ => None
      end
  | _ => None
  end.


Definition bitrate_of (x : Item) : Z :=
  match bitrate_key x with
  | Ok (VInt z) => z
  | _ => 0
  end.

(** Sorted on [le], and where [le] ties, in the order [R]. *)
Definition then_by {A} (le : A → A → bool) (R : relation A) : relation A :=
  λ x y, le x y = true ∧ (le y x = true → R x y).

(** The order a list is in after [sort_with]: [R] itself, or [R] backwards. *)
Definition towards {A} (rev : bool) (R : relation A) : relation A :=
  if rev then flip R else R.

(** The calls that change a playlist or make one. *)
Definition modifies (e : event) : bool :=
  match e with
  | Searched _ _ | Prompted _ _ => false
  | Created _ | ItemsRemoved _ _ | ItemsAdded _ _ => true
  end.

(** A statement that leaves every playlist as it is and makes no call that
    changes one, whether it returns or raises. *)
Definition reads_only {A} (m : M A) : Prop :=
  ∀ w, playlists (m w).2 = playlists w ∧
       ∃ made, calls (m w).2 = calls w ++ made ∧ Forall (λ e, modifies e = false) made.

(** The first code point, if any, is no white space. *)
Definition starts_clean (U : Unicode) (s : pystr) : Prop :=
  match s with
  | [] => True
  | c :: _ => isspace U c = false
  end.

(** An ASCII code point that is no capital letter: [lower] and [unidecode]
    leave it alone. *)
Definition plain (c : N) : Prop := is_ascii c = true ∧ ascii_lower c = c.

(** The tokens of a term as the specification words them: delimited by
    white space, as [str.split()] cuts them. *)
Fixpoint pieces (U : Unicode) (s : pystr) : list pystr :=
  match s with
  | [] => [[]]
  | c :: r =>
      if isspace U c then [] :: pieces U r
      else match pieces U r with
           | w :: ws => (c :: w) :: ws
           | [] => [[c]]
           end
  end.

Definition tokens (U : Unicode) (s : pystr) : list pystr :=
  filter (λ w, w ≠ []) (pieces U s).


(** ** Sample data *)

(** Tables that know nothing beyond ASCII: enough to run the functions on
    ASCII text, where the tables are never consulted. *)
Definition ascii_only : Unicode :=
  {| lower_ext := λ _ c _, [c];
     casefold_ext := λ c, [c];
     translit := λ _, [];
     isspace_ext := λ _, false;
     isword_ext := λ _, false |}.

(** The same tables with one entry of the [unidecode] table. *)
Definition with_bei : Unicode :=
  {| lower_ext := λ _ c _, [c];
     casefold_ext := λ c, [c];
     translit := λ c, if c =? 21271 then lit "Bei " else [];
     isspace_ext := λ _, false;
     isword_ext := λ _, false |}.

(** A track of three minutes. *)
Definition track (key : Z) (title album original grandparent codec : string) (rate : Z)
    : Item :=
  {| attrs :=
       <["ratingKey" := VInt key]>
         (<["title" := VStr (lit title)]>
           (<["parentTitle" := VStr (lit album)]>
             (<["originalTitle" := if bool_decide (original = ""%string)
                                   then VNone else VStr (lit original)]>
               (<["grandparentTitle" := VStr (lit grandparent)]>
                 (<["duration" := VInt 180000]> ∅)))));
     media := [ {| audioCodec := VStr (lit codec); bitrate := VInt rate;
                   duration := VInt 180000 |} ];
     album_title := VStr (lit album) |}.

(** Four tracks of two albums. *)
Definition four_tracks : list Item :=
  [ track 1 "One" "The Wall" "" "Pink Floyd" "mp3" 320;
    track 2 "Two" "Abbey Road" "Beatles" "Various" "mp3" 320;
    track 3 "Three" "The Wall" "Anna" "Various" "mp3" 320;
    track 4 "Four" "Abbey Road" "" "Aaron" "mp3" 320 ].

(** The candidates of the example of the specification, as the search finds
    them, and the track to replace. *)
Definition four_candidates : list Item :=
  [ track 11 "Song" "LP" "Artist C" "Various" "mp3" 256;
    track 12 "Song" "LP" "Artist B" "Various" "mp3" 320;
    track 13 "Song" "LP" "Artist A" "Various" "flac" 320;
    track 14 "Song" "LP" "Artist D" "Various" "mp3" 192 ].

Definition poor_track : Item := track 10 "Song" "LP" "Artist" "Various" "mp3" 192.

Definition finds (results : list Item) (answer : pystr) : Answers :=
  {| search := λ _ _, results; choose := λ _ _, answer |}.

Definition empty_world : World := {| playlists := []; calls := [] |}.

(** A server with one playlist of two tracks, one of them poor. *)
Definition small_world : World :=
  {| playlists :=
       [ {| pl_title := lit "Mix"; pl_summary := VNone; pl_type := lit "audio";
            pl_items := [track 10 "Song" "LP" "Artist" "Various" "mp3" 192;
                         track 32 "Song" "LP" "Artist" "Various" "mp3" 320] |} ];
     calls := [] |}.

Definition no_lists : Lists :=
  {| items_to_remove := []; items_to_add := []; items_ommited := [] |}.

Definition better_track : Item := track 31 "Song" "LP" "Artist" "Various" "flac" 900.

Definition good_track : Item := track 32 "Song" "LP" "Artist" "Various" "mp3" 320.

(** A film has no [grandparentTitle]. *)
Definition film : Item :=
  {| attrs := {[ "title"%string := VStr (lit "Alien"); "year"%string := VInt 1979 ]};
     media := []; album_title := VNone |}.

(** "The", a tab, "Beatles". *)
Definition the_tab_beatles : pystr := lit "The" ++ [9] ++ lit "Beatles".


(** ** choose_sorting_method *)

(** One entry of [choices]: the keys a dictionary lacks are [None]. *)
Record SortChoice := {
  sc_name : string;
  sc_key : string;
  sc_backup_key : option string;
  sc_secondary_key : option string;
  sc_secondary_backup_key : option string
}.

Definition sort_choices (playlist_type : pystr) : list SortChoice :=
  [ {| sc_name := "Title"; sc_key := "title"; sc_backup_key := None;
       sc_secondary_key := Some "originalTitle";
       sc_secondary_backup_key := Some "grandparentTitle" |};
    {| sc_name := "Sorting title"; sc_key := "titleSort"; sc_backup_key := None;
       sc_secondary_key := Some "originalTitle";
       sc_secondary_backup_key := Some "grandparentTitle" |} ]%string
  ++ (if bool_decide (playlist_type = lit "audio") then
        [ {| sc_name := "Artist name"; sc_key := "originalTitle";
             sc_backup_key := Some "grandparentTitle";
             sc_secondary_key := Some "title"; sc_secondary_backup_key := None |};
          {| sc_name := "Album artist name"; sc_key := "grandparentTitle";
             sc_backup_key := None;
             sc_secondary_key := Some "title"; sc_secondary_backup_key := None |};
          {| sc_name := "Album name"; sc_key := "parentTitle"; sc_backup_key := None;
             sc_secondary_key := Some "originalTitle";
             sc_secondary_backup_key := Some "grandparentTitle" |} ]%string
      else if bool_decide (playlist_type = lit "video") then
        [ {| sc_name := "Release year"; sc_key := "year"; sc_backup_key := None;
             sc_secondary_key := Some "title"; sc_secondary_backup_key := None |};
          {| sc_name := "Originally available at"; sc_key := "originallyAvailableAt";
             sc_backup_key := None;
             sc_secondary_key := Some "title"; sc_secondary_backup_key := None |} ]%string
      else [])
  ++ [ {| sc_name := "Duration"; sc_key := "duration"; sc_backup_key := None;
          sc_secondary_key := Some "title"; sc_secondary_backup_key := None |};
       {| sc_name := "Shuffle randomly"; sc_key := "shuffle"; sc_backup_key := None;
          sc_secondary_key := None; sc_secondary_backup_key := None |} ]%string.

(** One entry of [sorting_choices]. *)
Record DirectionChoice := {
  dc_name : string;
  dc_reverse : bool
}.

Definition sorting_choices : list DirectionChoice :=
  [ {| dc_name := "Sort ascending"; dc_reverse := false |};
    {| dc_name := "Sort descending"; dc_reverse := true |} ].

(** The tuple of the key, the backup key, the secondary key, its backup key
    and the direction. Subscripting the [None] that [question] may return is
    a [TypeError]. *)
Definition choose_sorting_method (answers : Answers) (playlist_type : pystr)
    : M (string * string * string * string * bool) :=
  selected_choice <-
    question answers
      (lit "Select the sorting key for this " ++ playlist_type ++ lit " playlist")
      (sort_choices playlist_type) (λ c, Ok (lit (sc_name c))) false;;
  match selected_choice with
  | None => raise TypeError
  | Some c =>
      if bool_decide (sc_key c = "shuffle"%string) then
        ret (sc_key c, sc_key c, sc_key c, sc_key c, false)
      else
        selected_sorting_choice <-
          question answers (lit "Select the sorting direction for " ++ lit (sc_name c))
            sorting_choices (λ d, Ok (lit (dc_name d))) false;;
        match selected_sorting_choice with
        | None => raise TypeError
        | Some d =>
            ret (sc_key c,
                 default (sc_key c) (sc_backup_key c),
                 default (sc_key c) (sc_secondary_key c),
                 default (sc_key c) (sc_secondary_backup_key c),
                 dc_reverse d)
        end
  end.

(** ** sort_playlist, whole *)

(** The entry of a playlist that is the track [x], and the other entries. *)
Fixpoint take_first (x : Item) (l : list Item) : option (Item * list Item) :=
  match l with
  | [] => None
  | y :: l' =>
      if same_track y x then Some (y, l')
      else '(found, rest) ← take_first x l'; Some (found, y :: rest)
  end.

(** [entry] put right after the entry that is the track [after]. *)
Fixpoint put_after (after entry : Item) (l : list Item) : option (list Item) :=
  match l with
  | [] => None
  | y :: l' =>
      if same_track y after then Some (y :: entry :: l')
      else cons y <$> put_after after entry l'
  end.

(** [playlist.moveItem(item, after=after)]: the entry of [item] goes right
    after the entry of [after], or to the front when [after] is [None]; an
    item that is not in the playlist is [NotFound]. *)
Definition moveItem (id : nat) (item : Item) (after : option Item) : M unit :=
  current <- playlist_items id;;
  match take_first item current with
  | None => raise NotFound
  | Some (entry, rest) =>
      match after with
      | None => set_items id (entry :: rest)
      | Some a =>
          match take_first a current with
          | None => raise NotFound
          | Some _ =>
              match put_after a entry rest with
              | Some moved => set_items id moved
              | None => set_items id current
              end
          end
      end
  end.

(** The loop of [sort_playlist] over the sorted items. *)
Fixpoint move_all (id : nat) (items : list Item) (previous_item : option Item) : M unit :=
  match items with
  | [] => ret ()
  | item :: items' =>
      moveItem id item previous_item ;;; move_all id items' (Some item)
  end.

(** The playlist with the number [id]. *)
Definition the_playlist (id : nat) : M Playlist := λ w,
  match playlists w !! id with
  | Some p => (Ok p, w)
  | None => (Raise NotFound, w)
  end.

(** [sort_playlist]: the list [playlist.items()] returns is a list object of
    its own here. *)
Definition sort_playlist (U : Unicode) (rng : nat → nat) (playlist : nat)
    (sort_key backup_sort_key secondary_sort_key backup_secondary_sort_key : string)
    (sort_reverse duplicate : bool) : M nat :=
  p <- the_playlist playlist;;
  items <- playlist_items playlist;;
  items <- lift ('(heap, l) ← sort_playlist_items U rng (pl_type p) sort_key backup_sort_key
                                 secondary_sort_key backup_secondary_sort_key
                                 sort_reverse [items] 0;
                 Ok (default [] (heap !! l)));;
  if duplicate then
    playlist_create {| pl_title := lit "Copy of " ++ pl_title p; pl_summary := pl_summary p;
                       pl_type := pl_type p; pl_items := items |}
  else
    move_all playlist items None ;;; ret playlist.

(** ** More sample data *)

(** An item with no media, and tracks whose bitrate is not known. *)
Definition without_media : Item := {| attrs := ∅; media := []; album_title := VNone |}.

Definition without_bitrate (codec : string) : Item :=
  {| attrs := ∅;
     media := [ {| audioCodec := VStr (lit codec); bitrate := VNone; duration := VNone |} ];
     album_title := VNone |}.

(** Asked [message], the person at the terminal picks [label]. *)
Definition answers_to (answers : Answers) (message label : pystr) : Prop :=
  ∀ choices, choose answers message choices = label.


(** Someone who answers by the question asked. *)
Definition by_question (key direction : pystr) : Answers :=
  {| search := λ _ _, [];
     choose := λ message _,
       if str_prefix (lit "Select the sorting key") message then key else direction |}.


(** The [ratingKey] of an item, by which the server knows a track. *)
Definition rating_key (x : Item) : option pyval := attrs x !! "ratingKey"%string.

(** The world in which the playlist [id] holds [items]. *)
Definition with_items (id : nat) (items : list Item) (w : World) : World :=
  (set_items id items w).2.

(** A server with one audio playlist of four tracks. *)
Definition four_world : World :=
  {| playlists :=
       [ {| pl_title := lit "Mix"; pl_summary := VNone; pl_type := lit "audio";
            pl_items := four_tracks |} ];
     calls := [] |}.

(** The two tests a search result passes to become a replacement of
    [item]: a bitrate that is truthy and above that of [item], and an
    artist that contains the artist of [item], both case-folded. *)
Definition upgrade_of (U : Unicode) (item r : Item) : Prop :=
  higher_bitrate item r = Ok true ∧ artist_within U item r = Ok true.

(** The items of a playlist that fail the quality requirements. *)
Definition failing (config : gmap string pystr) (items : list Item) : list Item :=
  filter (λ x, check_quality_requirements config x = Ok false) items.

(** The entries of [current] that are none of the tracks [removed]. *)
Definition without (removed current : list Item) : list Item :=
  filter (λ x, rating_key x ∉ rating_key <$> removed) current.

(** The items [Playlist.create] accepts: there is one, the first has a
    [listType] and each has a [ratingKey]. *)
Definition creatable (items : list Item) : Prop :=
  match items with
  | [] => False
  | first :: _ =>
      is_Some (attrs first !! "listType"%string) ∧
      Forall (λ x, is_Some (attrs x !! "ratingKey"%string)) items
  end.

(** The kind of playlist the items make. *)
Definition list_type (items : list Item) : pyval :=
  match items with
  | first :: _ => default VNone (attrs first !! "listType"%string)
  | [] => VNone
  end.

(** The playlist [Playlist.create] makes in [upgrade_playlist] of the
    playlist [p], where its items are accepted. *)
Definition copy_of (p : Playlist) : Playlist :=
  created {| pl_title := lit "Copy of " ++ pl_title p; pl_summary := pl_summary p;
             pl_type := pl_type p; pl_items := pl_items p |}
    (list_type (pl_items p)).

(** The server when the analysis of [upgrade_playlist] starts, and the
    playlist the run works on. *)
Definition started (duplicate dry : bool) (p : Playlist) (w : World) : World :=
  if duplicate && negb dry
  then {| playlists := playlists w ++ [copy_of p]; calls := calls w ++ [Created (copy_of p)] |}
  else w.

Definition target (duplicate dry : bool) (playlist : nat) (w : World) : nat :=
  if duplicate && negb dry then length (playlists w) else playlist.

(** [audio_to_str] returns for the item. *)
Definition printable (x : Item) : Prop := ∃ s, audio_to_str x = Ok s.

(** A statement that shows no prompt, whether it returns or raises. *)
Definition is_prompt (e : event) : bool :=
  match e with
  | Prompted _ _ => true
  | _ => false
  end.

Definition asks_nothing {A} (m : M A) : Prop :=
  ∀ w, ∃ made, calls (m w).2 = calls w ++ made ∧ Forall (λ e, is_prompt e = false) made.

(** A [datetime] as Python admits them, on a whole second: the dates the
    server sends have no microseconds. *)
Definition whole_second (d : datetime) : Prop :=
  (1 ≤ year d ≤ 9999 ∧ 1 ≤ month d ≤ 12 ∧ 1 ≤ day d ≤ 31 ∧
   0 ≤ hour d < 24 ∧ 0 ≤ minute d < 60 ∧ 0 ≤ second d < 60 ∧ microsecond d = 0)%Z.

(** Two films and the day each came out. *)
Definition released (title : string) (y m d : Z) : Item :=
  {| attrs := {[ "title"%string := VStr (lit title);
                 "originallyAvailableAt"%string :=
                   VDatetime {| year := y; month := m; day := d; hour := 0; minute := 0;
                                second := 0; microsecond := 0 |} ]};
     media := []; album_title := VNone |}.

Definition dated_films : list Item :=
  [released "The Thing" 1982 6 25; released "Alien" 1979 5 25].

Definition release_date (x : Item) : datetime :=
  match attrs x !! "originallyAvailableAt"%string with
  | Some (VDatetime d) => d
  | _ => {| year := 1; month := 1; day := 1; hour := 0; minute := 0; second := 0;
            microsecond := 0 |}
  end.

(** A track as the server sends it, with its [listType]. *)
Definition listed (x : Item) : Item :=
  {| attrs := <["listType"%string := VStr (lit "audio")]> (attrs x);
     media := media x; album_title := album_title x |}.

(** A server with one audio playlist of four such tracks. *)
Definition listed_world : World :=
  {| playlists :=
       [ {| pl_title := lit "Mix"; pl_summary := VNone; pl_type := lit "audio";
            pl_items := listed <$> four_tracks |} ];
     calls := [] |}.

(** A server with one playlist of two such tracks, one of them poor. *)
Definition listed_pair : World :=
  {| playlists :=
       [ {| pl_title := lit "Mix"; pl_summary := VNone; pl_type := lit "audio";
            pl_items := [listed poor_track; listed good_track] |} ];
     calls := [] |}.

(** * Properties *)

(** ** Stable sorting *)

Section StableSort.
Context {A : Type} (le : A → A → bool).
Hypothesis le_total : ∀ x y, le x y = true ∨ le y x = true.
Hypothesis le_trans : ∀ x y z, le x y = true → le y z = true → le x z = true.

Lemma insert_by_Permutation x l : insert_by le x l ≡ₚ x :: l.
Proof.
  induction l as [|y l IH]; simpl; [done|].
  destruct (le x y); [done|]. rewrite IH. apply Permutation_swap.
Qed.

Lemma stable_sort_Permutation l : stable_sort le l ≡ₚ l.
Proof.
  induction l as [|x l IH]; simpl; [done|].
  by rewrite insert_by_Permutation, IH.
Qed.

Lemma insert_by_then_by R x l :
  StronglySorted (then_by le R) l → Forall (R x) l →
  StronglySorted (then_by le R) (insert_by le x l).
Proof using le_total le_trans.
  induction l as [|y l IH]; simpl; intros Hs Hx.
  { repeat constructor. }
  apply StronglySorted_cons in Hs as [Hy Hs].
  apply Forall_cons in Hx as [Hxy Hx].
  destruct (le x y) eqn:Hle.
  - apply StronglySorted_cons. split; [|by apply StronglySorted_cons].
    constructor; [by split|].
    rewrite Forall_forall in Hy, Hx |- *. intros z Hz.
    destruct (Hy z Hz) as [Hyz _]. split; eauto.
  - apply StronglySorted_cons. split; [|by apply IH].
    rewrite insert_by_Permutation. constructor; [|done].
    split; [|congruence]. by destruct (le_total x y) as [?|?]; [congruence|].
Qed.

Lemma stable_sort_then_by R l :
  StronglySorted R l → StronglySorted (then_by le R) (stable_sort le l).
Proof using le_total le_trans.
  induction l as [|x l IH]; simpl; intros Hs; [constructor|].
  apply StronglySorted_cons in Hs as [Hx Hs].
  apply insert_by_then_by; [by apply IH|].
  by rewrite stable_sort_Permutation.
Qed.
End StableSort.

Lemma StronglySorted_reverse {A} (R : relation A) (l : list A) :
  StronglySorted R l → StronglySorted (flip R) (reverse l).
Proof.
  induction 1 as [|x l Hs IH Hx]; [constructor|].
  rewrite reverse_cons. apply StronglySorted_app_2; [|done|repeat constructor].
  intros y z Hy ->%list_elem_of_singleton. unfold flip.
  rewrite Forall_forall in Hx. by apply Hx, elem_of_reverse.
Qed.

Lemma StronglySorted_impl {A} (R S : relation A) (l : list A) :
  (∀ x y, R x y → S x y) → StronglySorted R l → StronglySorted S l.
Proof.
  intros HRS. induction 1 as [|x l Hs IH Hx]; constructor; [done|].
  eapply Forall_impl; eauto.
Qed.

Lemma StronglySorted_lookup {A} (R : relation A) (l : list A) i j x y :
  StronglySorted R l → (i < j)%nat → l !! i = Some x → l !! j = Some y → R x y.
Proof.
  intros Hs. revert i j. induction Hs as [|z l Hs IH Hz]; intros i j Hij Hi Hj.
  { by rewrite lookup_nil in Hi. }
  destruct j as [|j]; [lia|]. destruct i as [|i]; simpl in *.
  - simplify_eq. rewrite Forall_forall in Hz. eapply Hz, list_elem_of_lookup_2, Hj.
  - eapply (IH i j); [lia|done..].
Qed.

Lemma sort_with_Permutation {A} (le : A → A → bool) rev (l : list A) :
  sort_with le rev l ≡ₚ l.
Proof.
  unfold sort_with. destruct rev.
  - by rewrite reverse_Permutation, stable_sort_Permutation, reverse_Permutation.
  - apply stable_sort_Permutation.
Qed.

Lemma sort_with_then_by {A} (le : A → A → bool) (R : relation A) rev (l : list A) :
  (∀ x y, le x y = true ∨ le y x = true) →
  (∀ x y z, le x y = true → le y z = true → le x z = true) →
  StronglySorted (towards rev R) l →
  StronglySorted (towards rev (then_by le R)) (sort_with le rev l).
Proof.
  intros Htot Htrans Hl. unfold sort_with, towards in *. destruct rev.
  - apply StronglySorted_reverse, stable_sort_then_by; [done..|].
    apply StronglySorted_reverse in Hl.
    eapply StronglySorted_impl, Hl. by unfold flip.
  - by apply stable_sort_then_by.
Qed.

(** Sorting decorated items is sorting the items on their decoration. *)
Lemma insert_by_fmap {A B} (f : A → B) (le : B → B → bool) x (l : list A) :
  insert_by le (f x) (f <$> l) = f <$> insert_by (λ a b, le (f a) (f b)) x l.
Proof.
  induction l as [|y l IH]; csimpl; [done|].
  destruct (le (f x) (f y)); csimpl; [done|]. by rewrite IH.
Qed.

Lemma stable_sort_fmap {A B} (f : A → B) (le : B → B → bool) (l : list A) :
  stable_sort le (f <$> l) = f <$> stable_sort (λ a b, le (f a) (f b)) l.
Proof.
  induction l as [|x l IH]; [done|].
  change (insert_by le (f x) (stable_sort le (f <$> l))
          = f <$> insert_by (λ a b, le (f a) (f b)) x
                    (stable_sort (λ a b, le (f a) (f b)) l)).
  rewrite IH. apply insert_by_fmap.
Qed.

Lemma sort_with_fmap {A B} (f : A → B) (le : B → B → bool) rev (l : list A) :
  sort_with le rev (f <$> l) = f <$> sort_with (λ a b, le (f a) (f b)) rev l.
Proof.
  unfold sort_with. destruct rev; [|apply stable_sort_fmap].
  by rewrite <-fmap_reverse, stable_sort_fmap, fmap_reverse.
Qed.

(** ** The orders on keys *)

Lemma str_le_refl a : str_le a a = true.
Proof.
  induction a as [|x a IH]; simpl; [done|].
  by rewrite N.ltb_irrefl.
Qed.

Lemma str_le_total a b : str_le a b = true ∨ str_le b a = true.
Proof.
  revert b. induction a as [|x a IH]; intros [|y b]; simpl; auto.
  destruct (N.ltb_spec x y), (N.ltb_spec y x); auto; lia.
Qed.

Lemma str_le_trans a b c : str_le a b = true → str_le b c = true → str_le a c = true.
Proof.
  revert b c. induction a as [|x a IH]; intros [|y b] [|z c]; simpl; try done.
  destruct (N.ltb_spec x y), (N.ltb_spec y x), (N.ltb_spec y z), (N.ltb_spec z y),
    (N.ltb_spec x z), (N.ltb_spec z x); try done; try lia.
  apply IH.
Qed.

(** ** What [sorted] returns *)

Lemma map_r_Ok {A B} (key : A → result B) (g : A → B) (xs : list A) :
  (∀ x, x ∈ xs → key x = Ok (g x)) → map_r key xs = Ok (g <$> xs).
Proof.
  induction xs as [|x xs IH]; intros Hk; simpl; [done|].
  rewrite (Hk x) by set_solver. simpl.
  rewrite IH by (intros; apply Hk; set_solver). done.
Qed.

Lemma map_r_Raise {A B} (key : A → result B) (e : exn) (xs : list A) :
  (∀ x, x ∈ xs → key x = Raise e ∨ ∃ v, key x = Ok v) →
  (∃ x, x ∈ xs ∧ key x = Raise e) →
  map_r key xs = Raise e.
Proof.
  induction xs as [|x xs IH]; intros Hall (y & Hy & Hbad).
  { by apply elem_of_nil in Hy. }
  simpl. destruct (Hall x) as [Hx|[v Hv]]; [by left|by rewrite Hx|].
  rewrite Hv. simpl. rewrite IH; [done| |].
  - intros z Hz. apply Hall. by right.
  - apply elem_of_cons in Hy as [Hy|Hy]; [congruence|eauto].
Qed.

Lemma map_r_length {A B} (key : A → result B) (xs : list A) ks :
  map_r key xs = Ok ks → length ks = length xs.
Proof.
  revert ks. induction xs as [|x xs IH]; intros ks; simpl.
  { by intros [= <-]. }
  destruct (key x); simpl; [|done].
  destruct (map_r key xs) eqn:E; simpl; [|done].
  intros [= <-]. simpl. f_equal. by apply IH.
Qed.

Lemma py_sorted_Ok {A} (key : A → result pyval) (g : A → pyval) rev (xs : list A) :
  (∀ x, x ∈ xs → key x = Ok (g x)) →
  comparable (g <$> xs) = true →
  py_sorted key rev xs = Ok (sort_with (λ a b, py_le (g a) (g b)) rev xs).
Proof.
  intros Hk Hc. unfold py_sorted. rewrite (map_r_Ok _ g) by done.
  unfold mbind, result_bind. rewrite Hc. cbn [orb]. f_equal.
  rewrite zip_with_fmap_l, zip_with_diag.
  rewrite (sort_with_fmap (λ x, (g x, x)) (on_key py_le)).
  rewrite <-list_fmap_compose. apply list_fmap_id.
Qed.

Lemma py_sorted_str {A} (key : A → result pyval) (f : A → pystr) rev (xs : list A) :
  (∀ x, x ∈ xs → key x = Ok (VStr (f x))) →
  py_sorted key rev xs = Ok (sort_with (λ a b, str_le (f a) (f b)) rev xs).
Proof.
  intros Hk. rewrite (py_sorted_Ok key (λ x, VStr (f x))); [done..|].
  unfold comparable. replace (forallb is_str _) with true; [done|].
  symmetry. apply forallb_forall. intros v (x & -> & _)%list_elem_of_In%list_elem_of_fmap.
  done.
Qed.

Lemma py_sorted_int {A} (key : A → result pyval) (f : A → Z) rev (xs : list A) :
  (∀ x, x ∈ xs → key x = Ok (VInt (f x))) →
  py_sorted key rev xs = Ok (sort_with (λ a b, (f a <=? f b)%Z) rev xs).
Proof.
  intros Hk. rewrite (py_sorted_Ok key (λ x, VInt (f x))); [done..|].
  unfold comparable. replace (forallb is_int _) with true; [by rewrite orb_true_r|].
  symmetry. apply forallb_forall. intros v (x & -> & _)%list_elem_of_In%list_elem_of_fmap.
  done.
Qed.

(** Two calls of [sorted] in a row. *)
Lemma sort_with_twice {A} (le1 le2 : A → A → bool) rev1 rev2 (l : list A) :
  (∀ x y, le1 x y = true ∨ le1 y x = true) →
  (∀ x y z, le1 x y = true → le1 y z = true → le1 x z = true) →
  (∀ x y, le2 x y = true ∨ le2 y x = true) →
  (∀ x y z, le2 x y = true → le2 y z = true → le2 x z = true) →
  StronglySorted
    (towards rev1 (then_by le1 (towards rev1 (towards rev2 (λ x y, le2 x y = true)))))
    (sort_with le1 rev1 (sort_with le2 rev2 l)).
Proof.
  intros Htot1 Htrans1 Htot2 Htrans2.
  apply sort_with_then_by; [done..|].
  assert (StronglySorted (towards rev2 (λ x y, le2 x y = true)) (sort_with le2 rev2 l)) as Hs.
  { eapply StronglySorted_impl;
      [|apply (sort_with_then_by le2 (λ _ _, True) rev2 l); [done..|]].
    - unfold towards, then_by, flip. destruct rev2; by intros x y [? _].
    - assert (∀ k : list A, StronglySorted (λ _ _, True) k) as Hany.
      { induction k; constructor; [done|]. by apply Forall_true. }
      eapply StronglySorted_impl, Hany. unfold towards, flip. by destruct rev2. }
  eapply StronglySorted_impl, Hs. unfold towards, flip. by destruct rev1.
Qed.

(** ** The Sorter *)

Lemma sort_value_resolved_text U k bk x s :
  resolved_text k bk x = Some s → sort_value U k bk x = Ok (VStr (sortable_str U s)).
Proof.
  unfold resolved_text, sort_value, getattr.
  destruct (attrs x !! k) as [[|t| |]|]; try done; cbn [mbind result_bind].
  - rewrite bool_decide_eq_false_2 by (by intros ?).
    destruct (attrs x !! bk) as [[|t| |]|]; try done. by intros [= ->].
  - rewrite bool_decide_eq_true_2 by done. by intros [= ->].
Qed.

(** C3: on an audio playlist with a secondary key, the ordering stage of
    [sort_playlist] sorts on the normalised secondary value and then, stably,
    on the normalised primary value, both in the chosen direction. The value
    of an item is the text of its key attribute, or of the fallback
    attribute where the key attribute is [None], normalised by
    [sortable_term]. Whenever every item has both texts, the stage returns
    a new list that is this double sort of the items; the list runs along
    the primary value, and items of equal primary value follow the
    secondary value, upwards when ascending and downwards when
    descending. *)
Theorem sort_playlist_secondary_then_primary
    U rng k bk sk bsk (rev : bool) (heap : list (list Item)) l items
    (primary secondary : Item → pystr) :
  heap !! l = Some items →
  k ≠ "shuffle"%string →
  sk ≠ ""%string →
  (∀ x, x ∈ items → resolved_text k bk x = Some (primary x)) →
  (∀ x, x ∈ items → resolved_text sk bsk x = Some (secondary x)) →
  let key1 x := sortable_str U (primary x) in
  let key2 x := sortable_str U (secondary x) in
  ∃ heap' out,
    sort_playlist_items U rng (lit "audio") k bk sk bsk rev heap l
      = Ok (heap', S (length heap)) ∧
    heap' !! S (length heap) = Some out ∧
    out = sort_with (λ x y, str_le (key1 x) (key1 y)) rev
            (sort_with (λ x y, str_le (key2 x) (key2 y)) rev items) ∧
    out ≡ₚ items ∧
    ∀ i j x y, (i < j)%nat → out !! i = Some x → out !! j = Some y →
      (if rev then str_le (key1 y) (key1 x) else str_le (key1 x) (key1 y)) = true ∧
      (key1 x = key1 y →
       (if rev then str_le (key2 y) (key2 x) else str_le (key2 x) (key2 y)) = true).
Proof.
  intros Hl Hk Hsk H1 H2 key1 key2.
  set (le1 := λ x y, str_le (key1 x) (key1 y)).
  set (le2 := λ x y, str_le (key2 x) (key2 y)).
  set (mid := sort_with le2 rev items).
  set (out := sort_with le1 rev mid).
  assert (mid ≡ₚ items) as Hmid by apply sort_with_Permutation.
  assert (out ≡ₚ items) as Hout.
  { unfold out. by rewrite sort_with_Permutation. }
  exists (heap ++ [mid] ++ [out]), out. split; [|split; [|split; [|split]]]; try done.
  - unfold sort_playlist_items. rewrite Hl.
    rewrite (bool_decide_eq_false_2 (k = "shuffle"%string)) by done.
    rewrite (bool_decide_eq_true_2 (sk ≠ ""%string)) by done.
    rewrite bool_decide_eq_true_2 by done. cbn [andb].
    rewrite (py_sorted_str _ key2); last first.
    { intros x Hx. by apply sort_value_resolved_text, H2. }
    cbn [mbind result_bind]. fold le2. fold mid.
    rewrite (py_sorted_str _ key1); last first.
    { intros x Hx. apply sort_value_resolved_text, H1. by rewrite <-Hmid. }
    cbn [mbind result_bind]. fold le1. fold out.
    rewrite length_app. simpl. rewrite <-app_assoc.
    do 3 f_equal. lia.
  - rewrite app_assoc, lookup_app_r; rewrite length_app; simpl; [|lia].
    by replace (S (length heap) - (length heap + 1))%nat with 0%nat by lia.
  - intros i j x y Hij Hi Hj.
    pose proof (sort_with_twice le1 le2 rev rev items
                  (λ x y, str_le_total _ _) (λ x y z, str_le_trans _ _ _)
                  (λ x y, str_le_total _ _) (λ x y z, str_le_trans _ _ _)) as Hs.
    apply (StronglySorted_lookup _ _ i j x y) in Hs; [|done..].
    unfold towards, then_by, flip, le1, le2 in Hs.
    destruct rev; destruct Hs as [Hp Hsec]; (split; [done|]);
      intros Heq; apply Hsec; rewrite Heq; apply str_le_refl.
Qed.

Lemma sort_playlist_secondary_then_primary_witness :
  let album x := sortable_str ascii_only
                   (default [] (resolved_text "parentTitle" "parentTitle" x)) in
  let artist x := sortable_str ascii_only
                    (default [] (resolved_text "originalTitle" "grandparentTitle" x)) in
  ∃ heap' out,
    sort_playlist_items ascii_only (λ _, 0%nat) (lit "audio")
      "parentTitle" "parentTitle" "originalTitle" "grandparentTitle" true
      [four_tracks] 0 = Ok (heap', 2%nat) ∧
    heap' !! 2%nat = Some out ∧
    out = [ track 1 "One" "The Wall" "" "Pink Floyd" "mp3" 320;
            track 3 "Three" "The Wall" "Anna" "Various" "mp3" 320;
            track 2 "Two" "Abbey Road" "Beatles" "Various" "mp3" 320;
            track 4 "Four" "Abbey Road" "" "Aaron" "mp3" 320 ] ∧
    out ≡ₚ four_tracks ∧
    ∀ i j x y, (i < j)%nat → out !! i = Some x → out !! j = Some y →
      str_le (album y) (album x) = true ∧
      (album x = album y → str_le (artist y) (artist x) = true).
Proof.
  intros album artist.
  destruct (sort_playlist_secondary_then_primary ascii_only (λ _, 0%nat)
              "parentTitle" "parentTitle" "originalTitle" "grandparentTitle" true
              [four_tracks] 0 four_tracks
              (λ x, default [] (resolved_text "parentTitle" "parentTitle" x))
              (λ x, default [] (resolved_text "originalTitle" "grandparentTitle" x)))
    as (heap' & out & Hrun & Hlook & Hout & Hperm & Hsorted).
  - reflexivity.
  - discriminate.
  - discriminate.
  - intros x Hx. unfold four_tracks in Hx.
    repeat (apply elem_of_cons in Hx as [->|Hx]; [vm_compute; reflexivity|]).
    by apply elem_of_nil in Hx.
  - intros x Hx. unfold four_tracks in Hx.
    repeat (apply elem_of_cons in Hx as [->|Hx]; [vm_compute; reflexivity|]).
    by apply elem_of_nil in Hx.
  - exists heap', out. split; [exact Hrun|]. split; [exact Hlook|].
    split; [rewrite Hout; vm_compute; reflexivity|]. split; [exact Hperm|exact Hsorted].
Defined.

(** ** The ReplacementMatcher: ranking *)




(** ** The QualityEvaluator *)

(** C1: with [force_all] set the check fails for every item; otherwise with
    [force_lossless] set it passes exactly for the codecs alac and flac;
    otherwise it fails exactly for mp3 below 320 and for aac below 256. So
    mp3 at 319 fails, mp3 at 320 passes and flac passes at any bitrate when
    neither flag is set. *)
Theorem check_quality_requirements_cases config item m rest (rate : Z) :
  media item = m :: rest →
  bitrate m = VInt rate →
  let force_all := truthy (config_get config "upgrade.force_all") in
  let force_lossless := truthy (config_get config "upgrade.force_lossless") in
  (force_all = true →
   ∀ any, check_quality_requirements config any = Ok false) ∧
  (force_all = false → force_lossless = true →
   ∃ passes, check_quality_requirements config item = Ok passes ∧
     (passes = true ↔
      audioCodec m = VStr (lit "alac") ∨ audioCodec m = VStr (lit "flac"))) ∧
  (force_all = false → force_lossless = false →
   (∃ passes, check_quality_requirements config item = Ok passes ∧
     (passes = false ↔
      (audioCodec m = VStr (lit "mp3") ∧ rate < 320)%Z ∨
      (audioCodec m = VStr (lit "aac") ∧ rate < 256)%Z)) ∧
   check_quality_requirements config (track 1 "Song" "LP" "Artist" "Artist" "mp3" 319)
     = Ok false ∧
   check_quality_requirements config (track 1 "Song" "LP" "Artist" "Artist" "mp3" 320)
     = Ok true ∧
   ∀ any_rate,
     check_quality_requirements config
       (track 1 "Song" "LP" "Artist" "Artist" "flac" any_rate) = Ok true).
Proof.
  intros Hm Hrate force_all force_lossless. subst force_all force_lossless.
  unfold check_quality_requirements, media0. rewrite Hm.
  split; [|split].
  - by intros ->.
  - intros -> ->. cbn [mbind result_bind]. eexists; split; [done|].
    rewrite bool_decide_eq_true, !elem_of_cons, elem_of_nil. tauto.
  - intros -> ->. cbn [mbind result_bind]. split; [|by vm_compute].
    rewrite Hrate. unfold py_eq, py_lt, py_le.
    destruct (decide (audioCodec m = VStr (lit "mp3"))) as [Hmp3|Hmp3].
    + rewrite (bool_decide_eq_true_2 _ Hmp3). cbn [mbind result_bind].
      destruct (Z.leb_spec 320 rate); cbn [negb].
      * rewrite bool_decide_eq_false_2 by (rewrite Hmp3; discriminate).
        cbn [mbind result_bind negb]. eexists; split; [done|].
        split; [done|]. intros [[_ ?]|[Haac _]]; [lia|].
        rewrite Hmp3 in Haac. discriminate.
      * eexists; split; [done|]. split; [|done]. intros _. left. split; [done|lia].
    + rewrite (bool_decide_eq_false_2 _ Hmp3). cbn [mbind result_bind].
      destruct (decide (audioCodec m = VStr (lit "aac"))) as [Haac|Haac].
      * rewrite (bool_decide_eq_true_2 _ Haac). cbn [mbind result_bind].
        destruct (Z.leb_spec 256 rate); cbn [negb]; (eexists; split; [done|]).
        -- split; [done|]. intros [[? _]|[_ ?]]; [done|lia].
        -- split; [|done]. intros _. right. split; [done|lia].
      * rewrite (bool_decide_eq_false_2 _ Haac). cbn [mbind result_bind negb].
        eexists; split; [done|]. split; [done|]. intros [[? _]|[? _]]; done.
Qed.

Lemma check_quality_requirements_cases_witness :
  let item := track 1 "Song" "LP" "Artist" "Artist" "aac" 255 in
  let m := {| audioCodec := VStr (lit "aac"); bitrate := VInt 255;
              duration := VInt 180000 |} in
  (∀ any, check_quality_requirements {[ "upgrade.force_all" := lit "1" ]} any = Ok false) ∧
  (∃ passes,
     check_quality_requirements {[ "upgrade.force_lossless" := lit "1" ]} item = Ok passes ∧
     (passes = true ↔
      audioCodec m = VStr (lit "alac") ∨ audioCodec m = VStr (lit "flac"))) ∧
  (∃ passes, check_quality_requirements ∅ item = Ok passes ∧
     (passes = false ↔
      (audioCodec m = VStr (lit "mp3") ∧ 255 < 320)%Z ∨
      (audioCodec m = VStr (lit "aac") ∧ 255 < 256)%Z)).
Proof.
  intros item m. split; [|split].
  - exact (proj1 (check_quality_requirements_cases
                    {[ "upgrade.force_all" := lit "1" ]} item m [] 255 eq_refl eq_refl)
             eq_refl).
  - exact (proj1 (proj2 (check_quality_requirements_cases
                    {[ "upgrade.force_lossless" := lit "1" ]} item m [] 255
                    eq_refl eq_refl))
             eq_refl eq_refl).
  - exact (proj1 (proj2 (proj2 (check_quality_requirements_cases
                    ∅ item m [] 255 eq_refl eq_refl))
             eq_refl eq_refl)).
Defined.

(** C10: the two flags are read by the truth value of the configured
    string: any string that is not empty sets the flag, so with [force_all]
    at "false" or at "0" every item still fails the check, and with
    [force_lossless] at such a string only alac and flac pass. *)
Theorem flags_by_truthiness (config : gmap string pystr) (value : pystr) :
  value ≠ [] →
  (config !! "upgrade.force_all"%string = Some value →
   ∀ item, check_quality_requirements config item = Ok false) ∧
  (truthy (config_get config "upgrade.force_all") = false →
   config !! "upgrade.force_lossless"%string = Some value →
   ∀ item m rest, media item = m :: rest →
     check_quality_requirements config item
     = Ok (bool_decide (audioCodec m = VStr (lit "alac")
                        ∨ audioCodec m = VStr (lit "flac")))) ∧
  (∀ item,
     check_quality_requirements (<["upgrade.force_all" := lit "false"]> config) item
     = Ok false) ∧
  (∀ item,
     check_quality_requirements (<["upgrade.force_all" := lit "0"]> config) item
     = Ok false).
Proof.
  intros Hvalue. unfold check_quality_requirements, config_get.
  split; [|split; [|split]].
  - intros -> item. cbn [truthy]. by rewrite bool_decide_eq_false_2.
  - intros -> -> item m rest Hm. cbn [truthy].
    rewrite bool_decide_eq_false_2 by done. cbn [negb].
    unfold media0. rewrite Hm. cbn [mbind result_bind]. f_equal.
    apply bool_decide_ext. rewrite !elem_of_cons, elem_of_nil. tauto.
  - intros item. by rewrite lookup_insert_eq.
  - intros item. by rewrite lookup_insert_eq.
Qed.

Lemma flags_by_truthiness_witness :
  (∀ item,
     check_quality_requirements {[ "upgrade.force_all" := lit "false" ]} item = Ok false) ∧
  check_quality_requirements {[ "upgrade.force_lossless" := lit "false" ]}
    (track 1 "Song" "LP" "Artist" "Artist" "mp3" 320) = Ok false.
Proof.
  split.
  - exact (proj1 (flags_by_truthiness {[ "upgrade.force_all" := lit "false" ]}
                    (lit "false") ltac:(discriminate)) eq_refl).
  - exact (proj1 (proj2 (flags_by_truthiness {[ "upgrade.force_lossless" := lit "false" ]}
                           (lit "false") ltac:(discriminate)))
             eq_refl eq_refl (track 1 "Song" "LP" "Artist" "Artist" "mp3" 320) _ []
             eq_refl).
Defined.

(** ** upgrade_playlist: the dry run *)

Lemma reads_only_lift {A} (r : result A) : reads_only (lift r).
Proof. intros w. split; [done|]. exists []. by rewrite app_nil_r. Qed.

Lemma reads_only_ret {A} (a : A) : reads_only (ret a).
Proof. apply reads_only_lift. Qed.

Lemma reads_only_raise {A} (e : exn) : reads_only (raise (A:=A) e).
Proof. apply reads_only_lift. Qed.

Lemma reads_only_bind {A B} (m : M A) (k : A → M B) :
  reads_only m → (∀ a, reads_only (k a)) → reads_only (bind m k).
Proof.
  intros Hm Hk w. unfold bind. specialize (Hm w).
  destruct (m w) as [[a|e] w1]; simpl in Hm; [|done].
  destruct Hm as (Hp & made & Hc & Hmade).
  destruct (Hk a w1) as (Hp' & made' & Hc' & Hmade').
  split; [congruence|]. exists (made ++ made'). split.
  - by rewrite Hc', Hc, app_assoc.
  - by apply Forall_app.
Qed.

Lemma reads_only_call (e : event) : modifies e = false → reads_only (call e).
Proof. intros He w. split; [done|]. exists [e]. split; [done|]. by constructor. Qed.

Lemma reads_only_playlist_items id : reads_only (playlist_items id).
Proof.
  intros w. unfold playlist_items.
  destruct (playlists w !! id); (split; [done|]); exists []; by rewrite app_nil_r.
Qed.

Create HintDb reads_only discriminated.
#[local] Hint Resolve reads_only_lift reads_only_ret reads_only_raise
  reads_only_playlist_items : reads_only.
#[local] Hint Extern 2 (reads_only (bind _ _)) =>
  apply reads_only_bind; [|intros ?] : reads_only.
#[local] Hint Extern 2 (reads_only (call _)) =>
  apply reads_only_call; reflexivity : reads_only.
#[local] Hint Extern 3 (reads_only (if ?b then _ else _)) => destruct b : reads_only.
#[local] Hint Extern 3 (reads_only (match ?x with _ => _ end)) => destruct x : reads_only.

Lemma reads_only_print {A} (e : result A) : reads_only (print e).
Proof. unfold print. auto with reads_only. Qed.
#[local] Hint Resolve reads_only_print : reads_only.

Lemma reads_only_print_all items : reads_only (print_all items).
Proof. induction items; simpl; auto with reads_only. Qed.
#[local] Hint Resolve reads_only_print_all : reads_only.

Lemma reads_only_question {A} answers message (items : list A) to_string none_choice :
  reads_only (question answers message items to_string none_choice).
Proof.
  unfold question, prompt.
  destruct items as [|x [|y items]]; auto 10 with reads_only.
Qed.
#[local] Hint Resolve reads_only_question : reads_only.

Lemma reads_only_find_replacements U answers item :
  reads_only (find_replacements U answers item).
Proof. unfold find_replacements, library_search. auto 10 with reads_only. Qed.
#[local] Hint Resolve reads_only_find_replacements : reads_only.

Lemma reads_only_upgrade_item U config answers simple_mode item ls :
  reads_only (upgrade_item U config answers simple_mode item ls).
Proof. unfold upgrade_item. auto 12 with reads_only. Qed.
#[local] Hint Resolve reads_only_upgrade_item : reads_only.

Lemma reads_only_upgrade_items U config answers simple_mode items ls :
  reads_only (upgrade_items U config answers simple_mode items ls).
Proof. revert ls. induction items; intros ls; simpl; auto with reads_only. Qed.
#[local] Hint Resolve reads_only_upgrade_items : reads_only.

(** C9: with [dry] set, [upgrade_playlist] leaves every playlist of the
    server as it was and calls neither [Playlist.create] nor [removeItems]
    nor [addItems], whatever the playlist, the flags and the answers of the
    search and of the prompt are, and whether it returns or raises. *)
Theorem dry_run_modifies_nothing U config answers playlist duplicate simple_mode w :
  let w' := (upgrade_playlist U config answers playlist duplicate simple_mode true w).2 in
  playlists w' = playlists w ∧
  ∃ made, calls w' = calls w ++ made ∧
    ∀ e, e ∈ made →
      (∀ p, e ≠ Created p) ∧
      (∀ id items, e ≠ ItemsRemoved id items) ∧
      (∀ id items, e ≠ ItemsAdded id items).
Proof.
  assert (reads_only
            (upgrade_playlist U config answers playlist duplicate simple_mode true)) as H.
  { unfold upgrade_playlist. rewrite andb_false_r. cbn [negb].
    apply reads_only_bind; [auto with reads_only|intros items].
    apply reads_only_bind; [auto with reads_only|intros [p its]].
    auto with reads_only. }
  destruct (H w) as (Hp & made & Hc & Hmade).
  split; [done|]. exists made. split; [done|].
  intros e He. rewrite Forall_forall in Hmade. specialize (Hmade e He).
  by destruct e.
Qed.

Lemma dry_run_modifies_nothing_witness :
  let w' := (upgrade_playlist ascii_only ∅
               (finds [track 31 "Song" "LP" "Artist" "Various" "flac" 900] [])
               0 true true true small_world).2 in
  playlists w' = playlists small_world ∧
  ∃ made, calls w' = calls small_world ++ made ∧
    ∀ e, e ∈ made →
      (∀ p, e ≠ Created p) ∧
      (∀ id items, e ≠ ItemsRemoved id items) ∧
      (∀ id items, e ≠ ItemsAdded id items).
Proof.
  exact (dry_run_modifies_nothing ascii_only ∅
           (finds [track 31 "Song" "LP" "Artist" "Various" "flac" 900] [])
           0 true true small_world).
Defined.

(** The same run without [dry] does change the playlist: the poor track
    leaves and the better one is appended. *)
Lemma run_without_dry_replaces :
  let run := upgrade_playlist ascii_only ∅ (finds [better_track] []) 0 false true false
               small_world in
  run.1 = Ok 0%nat ∧
  pl_items <$> playlists run.2 = [[good_track; better_track]] ∧
  calls run.2 = [ Searched (lit "Song") (lit "Artist");
                  ItemsRemoved 0 [poor_track];
                  ItemsAdded 0 [better_track] ].
Proof. vm_compute. done. Qed.

(** ** The ReplacementMatcher: the manual mode *)

(** C5 at one candidate: [question] returns the only item before it builds
    any choice, so in manual mode a track with one candidate is replaced by
    it and the prompt is never shown, here although the answer would have
    been "None"; with two candidates the prompt is shown, with "None" as the
    first choice, and the answer "None" leaves the track as it is. *)
Theorem manual_mode_single_candidate :
  (∀ answers (A : Type) message (only : A) to_string none_choice w,
     question answers message [only] to_string none_choice w = (Ok (Some only), w)) ∧
  (∀ U,
     upgrade_item U ∅ (finds [better_track] (lit "None")) false poor_track no_lists
       empty_world
     = (Ok (replaced poor_track better_track no_lists),
        {| playlists := []; calls := [Searched (lit "Song") (lit "Artist")] |})) ∧
  (∀ U, ∃ message choices,
     upgrade_item U ∅ (finds [better_track; good_track] (lit "None")) false poor_track
       no_lists empty_world
     = (Ok (ommited poor_track no_lists),
        {| playlists := [];
           calls := [Searched (lit "Song") (lit "Artist");
                     Prompted message (lit "None" :: choices)] |})).
Proof.
  split; [done|]. split.
  - intros U. vm_compute. reflexivity.
  - intros U. eexists _, _. vm_compute. reflexivity.
Qed.

(** ** The Sorter and the list it is given *)

Lemma py_sorted_Permutation {A} (key : A → result pyval) rev (xs out : list A) :
  py_sorted key rev xs = Ok out → out ≡ₚ xs.
Proof.
  unfold py_sorted. destruct (map_r key xs) as [ks|e] eqn:Hks; [|done].
  cbn [mbind result_bind]. destruct (_ || _); [|done]. intros [= <-].
  rewrite sort_with_Permutation. rewrite snd_zip; [done|].
  apply map_r_length in Hks. lia.
Qed.

Lemma insert_Permutation {A} (l : list A) i x y :
  l !! i = Some x → <[i:=y]> l ≡ₚ y :: delete i l.
Proof.
  intros Hi. rewrite insert_take_drop by (by eapply lookup_lt_Some).
  rewrite delete_take_drop. by rewrite Permutation_middle.
Qed.

Lemma swap_Permutation {A} (l : list A) i j : swap l i j ≡ₚ l.
Proof.
  unfold swap. destruct (l !! i) as [x|] eqn:Hi; [|done].
  destruct (l !! j) as [y|] eqn:Hj; [|done].
  destruct (decide (i = j)) as [->|Hij].
  { rewrite list_insert_insert_eq. rewrite list_insert_id; [done|congruence]. }
  assert (<[j:=x]> l !! i = Some x) as Hi' by (by rewrite list_lookup_insert_ne).
  etrans; [apply (insert_Permutation _ i x y Hi')|].
  etrans; [|symmetry; apply (delete_Permutation l j y Hj)]. constructor.
  apply (Permutation_cons_inv (a:=x)).
  etrans; [symmetry; apply (delete_Permutation _ i x Hi')|].
  apply (insert_Permutation l j y x Hj).
Qed.

Lemma shuffle_Permutation {A} rng (l : list A) : shuffle rng l ≡ₚ l.
Proof.
  unfold shuffle. generalize (length l - 1)%nat as i. intros i. revert l.
  induction i as [|i IH]; intros l; simpl; [done|].
  by rewrite IH, swap_Permutation.
Qed.

(** C6, as stated, fails: sorting with the key "shuffle" hands back the list
    object it was given, and that object has changed. *)
Lemma shuffle_changes_the_list_in_place :
  ∃ heap',
    sort_playlist_items ascii_only (λ _, 0%nat) (lit "audio")
      "shuffle" "shuffle" "shuffle" "shuffle" false [four_tracks] 0
    = Ok (heap', 0%nat) ∧
    length heap' = 1%nat ∧
    heap' !! 0%nat ≠ Some four_tracks.
Proof.
  eexists. split; [reflexivity|]. split; [reflexivity|].
  intros H. apply (f_equal (fmap (fmap (λ x, attrs x !! "ratingKey"%string)))) in H.
  vm_compute in H. discriminate.
Qed.

(** C6, amended: with any key but "shuffle" the Sorter builds new lists and
    leaves every list there was, the one it was given among them, as it
    was; the list it hands on is a new one and a permutation of the one it
    was given. With the key "shuffle" it builds no list: it permutes the list
    it was given in place and hands on that same list. *)
Theorem sort_playlist_items_and_the_list
    U rng playlistType k bk sk bsk rev (heap : list (list Item)) l items :
  heap !! l = Some items →
  (k = "shuffle"%string →
   sort_playlist_items U rng playlistType k bk sk bsk rev heap l
   = Ok (<[l := shuffle rng items]> heap, l) ∧
   shuffle rng items ≡ₚ items) ∧
  (k ≠ "shuffle"%string →
   ∀ heap' l',
     sort_playlist_items U rng playlistType k bk sk bsk rev heap l = Ok (heap', l') →
     (length heap ≤ l')%nat ∧
     take (length heap) heap' = heap ∧
     heap' !! l = Some items ∧
     ∃ out, heap' !! l' = Some out ∧ out ≡ₚ items).
Proof.
  intros Hl. unfold sort_playlist_items. rewrite Hl. split.
  - intros ->. split; [done|apply shuffle_Permutation].
  - intros Hk heap' l'. rewrite bool_decide_eq_false_2 by done.
    destruct (_ && _).
    + destruct (py_sorted _ rev items) as [mid|e] eqn:Hmid; [|done].
      cbn [mbind result_bind].
      destruct (py_sorted _ rev mid) as [out|e] eqn:Hout; [|done].
      cbn [mbind result_bind]. intros [= <- <-].
      apply py_sorted_Permutation in Hmid, Hout.
      rewrite length_app. simpl. split; [lia|]. split; [|split].
      * by rewrite <-app_assoc, take_app_length.
      * rewrite <-app_assoc. by apply lookup_app_l_Some.
      * exists out. split; [|by rewrite Hout].
        rewrite lookup_app_r by (rewrite length_app; simpl; lia).
        rewrite length_app. simpl.
        by replace (length heap + 1 - (length heap + 1))%nat with 0%nat by lia.
    + cbn [mbind result_bind].
      destruct (py_sorted _ rev items) as [out|e] eqn:Hout; [|done].
      cbn [mbind result_bind]. intros [= <- <-].
      apply py_sorted_Permutation in Hout.
      split; [lia|]. split; [|split].
      * by rewrite take_app_length.
      * by apply lookup_app_l_Some.
      * exists out. split; [|done].
        rewrite lookup_app_r by lia. by rewrite Nat.sub_diag.
Qed.

Lemma sort_playlist_items_and_the_list_witness :
  (sort_playlist_items ascii_only (λ _, 0%nat) (lit "audio")
     "shuffle" "shuffle" "shuffle" "shuffle" false [four_tracks] 0
   = Ok (<[0%nat := shuffle (λ _, 0%nat) four_tracks]> [four_tracks], 0%nat) ∧
   shuffle (λ _, 0%nat) four_tracks ≡ₚ four_tracks) ∧
  ∃ heap' l',
    sort_playlist_items ascii_only (λ _, 0%nat) (lit "audio")
      "title" "title" "originalTitle" "grandparentTitle" false [four_tracks] 0
    = Ok (heap', l') ∧
    (length [four_tracks] ≤ l')%nat ∧
    take (length [four_tracks]) heap' = [four_tracks] ∧
    heap' !! 0%nat = Some four_tracks ∧
    ∃ out, heap' !! l' = Some out ∧ out ≡ₚ four_tracks.
Proof.
  split.
  - exact (proj1 (sort_playlist_items_and_the_list ascii_only (λ _, 0%nat) (lit "audio")
                    "shuffle" "shuffle" "shuffle" "shuffle" false [four_tracks] 0
                    four_tracks eq_refl) eq_refl).
  - eexists _, _. split; [vm_compute; reflexivity|].
    apply (proj2 (sort_playlist_items_and_the_list ascii_only (λ _, 0%nat) (lit "audio")
                    "title" "title" "originalTitle" "grandparentTitle" false
                    [four_tracks] 0 four_tracks eq_refl)).
    + discriminate.
    + vm_compute. reflexivity.
Defined.

(** ** The Sorter and keys that do not fit *)

Lemma sort_value_cases U k bk x :
  sort_value U k bk x = Raise AttributeError ∨ ∃ s, sort_value U k bk x = Ok (VStr s).
Proof.
  unfold sort_value, getattr, sortable_term.
  destruct (attrs x !! k) as [v|]; [|by left]. cbn [mbind result_bind].
  destruct v; cbn; eauto; destruct (attrs x !! bk) as [[]|]; cbn; eauto.
Qed.

Lemma py_sorted_sort_value_cases U k bk rev xs :
  py_sorted (sort_value U k bk) rev xs = Raise AttributeError ∨
  ∃ out, py_sorted (sort_value U k bk) rev xs = Ok out ∧ out ≡ₚ xs.
Proof.
  destruct (decide (Exists (λ x, sort_value U k bk x = Raise AttributeError) xs))
    as [Hbad|Hgood].
  - left. unfold py_sorted. rewrite (map_r_Raise _ AttributeError); [done| |].
    + intros x _. destruct (sort_value_cases U k bk x) as [?|[s ?]]; eauto.
    + apply Exists_exists in Hbad. naive_solver.
  - right. apply not_Exists_Forall in Hgood; [|apply _].
    rewrite Forall_forall in Hgood.
    rewrite (py_sorted_str _ (sort_term U k bk)).
    + eexists. split; [done|]. apply sort_with_Permutation.
    + intros x Hx. unfold sort_term.
      destruct (sort_value_cases U k bk x) as [Hr|[s Hs]]; [|by rewrite Hs].
      by destruct (Hgood x Hx).
Qed.

(** C7, as stated, fails: sorting a playlist on its duration, which is an
    integer, raises [AttributeError], and no exception of the script is
    called [InvalidKeyError]. *)
Lemma sorting_on_duration_raises_AttributeError :
  sort_playlist_items ascii_only (λ _, 0%nat) (lit "audio")
    "duration" "duration" "title" "duration" false [four_tracks] 0
  = Raise AttributeError ∧
  exn_name AttributeError ≠ "InvalidKeyError"%string.
Proof. split; [vm_compute; reflexivity|discriminate]. Qed.

(** C7, amended: when some item of the playlist lacks the attribute the
    primary key names, or holds an integer there, the Sorter raises the
    [AttributeError] of Python, which nothing catches on the way to the
    caller; the script has no [InvalidKeyError]. *)
Theorem sort_playlist_items_bad_key
    U rng playlistType k bk sk bsk rev (heap : list (list Item)) l items x :
  heap !! l = Some items →
  k ≠ "shuffle"%string →
  x ∈ items →
  attrs x !! k = None ∨ (∃ z, attrs x !! k = Some (VInt z)) →
  sort_playlist_items U rng playlistType k bk sk bsk rev heap l = Raise AttributeError ∧
  ∀ e, exn_name e ≠ "InvalidKeyError"%string.
Proof.
  intros Hl Hk Hx Hbad. split; [|by intros []].
  assert (sort_value U k bk x = Raise AttributeError) as Hraise.
  { unfold sort_value, getattr. destruct Hbad as [->|[z ->]]; [done|].
    cbn [mbind result_bind]. by rewrite bool_decide_eq_true_2. }
  assert (∀ xs, x ∈ xs →
            py_sorted (sort_value U k bk) rev xs = Raise AttributeError) as Hsort.
  { intros xs Hxs. unfold py_sorted. rewrite (map_r_Raise _ AttributeError); [done| |].
    - intros y _. destruct (sort_value_cases U k bk y) as [?|[s ?]]; eauto.
    - eauto. }
  unfold sort_playlist_items. rewrite Hl. rewrite bool_decide_eq_false_2 by done.
  destruct (_ && _).
  - destruct (py_sorted_sort_value_cases U sk bsk rev items) as [->|(mid & -> & Hmid)];
      [done|].
    cbn [mbind result_bind]. rewrite Hsort; [done|]. by rewrite Hmid.
  - cbn [mbind result_bind]. by rewrite Hsort.
Qed.

Lemma sort_playlist_items_bad_key_witness :
  (sort_playlist_items ascii_only (λ _, 0%nat) (lit "video")
     "grandparentTitle" "grandparentTitle" "title" "grandparentTitle" false [[film]] 0
   = Raise AttributeError ∧
   ∀ e, exn_name e ≠ "InvalidKeyError"%string) ∧
  (sort_playlist_items ascii_only (λ _, 0%nat) (lit "video")
     "year" "year" "title" "year" true [[film]] 0
   = Raise AttributeError ∧
   ∀ e, exn_name e ≠ "InvalidKeyError"%string).
Proof.
  split.
  - apply (sort_playlist_items_bad_key ascii_only (λ _, 0%nat) (lit "video")
             "grandparentTitle" "grandparentTitle" "title" "grandparentTitle" false
             [[film]] 0 [film] film).
    + reflexivity.
    + discriminate.
    + apply list_elem_of_here.
    + left. reflexivity.
  - apply (sort_playlist_items_bad_key ascii_only (λ _, 0%nat) (lit "video")
             "year" "year" "title" "year" true [[film]] 0 [film] film).
    + reflexivity.
    + discriminate.
    + apply list_elem_of_here.
    + right. exists 1979%Z. reflexivity.
Defined.

(** ** The TermNormalizer *)

Lemma sortable_str_unfold U x :
  sortable_str U x = finish_term U (drop_article (unidecode U (lower U x))).
Proof. reflexivity. Qed.

Lemma split_cons sep s : ∃ w ws, split sep s = w :: ws.
Proof.
  induction s as [|c r (w & ws & IH)]; simpl; [by eauto|].
  destruct (c =? sep); [by eauto|]. rewrite IH. eauto.
Qed.

Lemma join_split sep s : join sep (split sep s) = s.
Proof.
  induction s as [|c r IH]; simpl; [done|].
  destruct (split_cons sep r) as (w & ws & Hr). rewrite Hr in IH |- *.
  destruct (N.eqb_spec c sep) as [->|Hc].
  - simpl. by rewrite <-IH.
  - rewrite <-IH. simpl. by destruct ws.
Qed.

Lemma split_no_sep sep s : sep ∉ s → split sep s = [s].
Proof.
  induction s as [|c r IH]; simpl; [done|]. intros Hs.
  apply not_elem_of_cons in Hs as [Hc Hr].
  destruct (N.eqb_spec c sep); [congruence|]. by rewrite IH.
Qed.

Lemma join_cons_cons sep a w ws : join sep (a :: w :: ws) = a ++ sep :: join sep (w :: ws).
Proof. done. Qed.

(** What is in the pieces is in the whole, and back. *)
Lemma Forall_split (P : N → Prop) sep s : Forall P s → Forall (Forall P) (split sep s).
Proof.
  induction 1 as [|c r Hc Hr IH]; simpl; [by repeat constructor|].
  destruct (c =? sep); [by repeat constructor|].
  destruct (split sep r) as [|w ws]; [by repeat constructor|].
  apply Forall_cons in IH as [Hw Hws]. by repeat constructor.
Qed.

Lemma Forall_join (P : N → Prop) sep ws :
  P sep → Forall (Forall P) ws → Forall P (join sep ws).
Proof.
  intros Hsep. induction 1 as [|w ws Hw Hws IH]; simpl; [done|].
  destruct ws; [done|]. apply Forall_app. split; [done|]. by constructor.
Qed.

Lemma Forall_drop_article (P : N → Prop) s : P 32 → Forall P s → Forall P (drop_article s).
Proof.
  intros Hsp Hs. unfold drop_article. destruct (strips_article s); [|done].
  apply Forall_join; [done|]. apply Forall_split with (sep:=32) in Hs.
  destruct (split 32 s); [done|]. by apply Forall_cons in Hs as [_ ?].
Qed.

Lemma Forall_replace (P : N → Prop) old new s :
  Forall P new → Forall P s → Forall P (replace old new s).
Proof.
  intros Hnew Hs. unfold replace. apply Forall_bind.
  eapply Forall_impl; [exact Hs|]. intros c Hc. simpl.
  destruct (c =? old); [done|by constructor].
Qed.

Lemma replace_absent old new s : old ∉ s → replace old new s = s.
Proof.
  unfold replace. induction s as [|c r IH]; [done|]. intros Hs.
  apply not_elem_of_cons in Hs as [Hc Hr]. rewrite bind_cons, IH by done.
  by destruct (N.eqb_spec c old); [congruence|].
Qed.

Lemma replace_gone old new s : old ∉ new → old ∉ replace old new s.
Proof.
  intros Hnew. unfold replace. rewrite list_elem_of_bind. intros (c & Hin & _).
  simpl in Hin. destruct (N.eqb_spec c old) as [Hc|Hc]; [done|].
  apply list_elem_of_singleton in Hin. congruence.
Qed.

Lemma filter_all {A} (P : A → Prop) `{∀ x, Decision (P x)} (l : list A) :
  Forall P l → filter P l = l.
Proof.
  induction 1 as [|x l Hx Hl IH]; [done|]. by rewrite filter_cons_True, IH.
Qed.

Section Strip.
Variable U : Unicode.

Lemma lstrip_suffix s : ∃ p, s = p ++ lstrip U s.
Proof.
  induction s as [|c r [p IH]]; simpl; [by exists []|].
  destruct (isspace U c); [|by exists []].
  exists (c :: p). simpl. by rewrite <-IH.
Qed.

Lemma lstrip_starts_clean s : starts_clean U (lstrip U s).
Proof.
  induction s as [|c r IH]; simpl; [done|].
  by destruct (isspace U c) eqn:Hc.
Qed.

Lemma lstrip_clean s : starts_clean U s → lstrip U s = s.
Proof. destruct s as [|c r]; simpl; [done|]. by intros ->. Qed.

Lemma Forall_lstrip (P : N → Prop) s : Forall P s → Forall P (lstrip U s).
Proof.
  intros Hs. destruct (lstrip_suffix s) as [p Hp]. rewrite Hp in Hs.
  by apply Forall_app in Hs as [_ ?].
Qed.

Lemma Forall_strip (P : N → Prop) s : Forall P s → Forall P (strip U s).
Proof.
  intros Hs. unfold strip.
  by apply Forall_reverse, Forall_lstrip, Forall_reverse, Forall_lstrip.
Qed.

Lemma strip_strip s : strip U (strip U s) = strip U s.
Proof.
  unfold strip. set (u := lstrip U s). set (v := lstrip U (reverse u)).
  assert (lstrip U (reverse v) = reverse v) as ->.
  { apply lstrip_clean. destruct (lstrip_suffix (reverse u)) as [p Hp].
    fold v in Hp. apply (f_equal reverse) in Hp.
    rewrite reverse_involutive, reverse_app in Hp.
    pose proof (lstrip_starts_clean s) as Hu. fold u in Hu. rewrite Hp in Hu.
    by destruct (reverse v). }
  rewrite reverse_involutive. f_equal. apply lstrip_clean, lstrip_starts_clean.
Qed.
End Strip.

Lemma plain_ascii_lower c : is_ascii c = true → plain (ascii_lower c).
Proof.
  unfold plain, is_ascii, ascii_lower. intros Hc%N.ltb_lt.
  destruct (N.leb_spec 65 c), (N.leb_spec c 90); simpl;
    (split; [apply N.ltb_lt; lia|]);
    repeat match goal with |- context [N.leb ?a ?b] => destruct (N.leb_spec a b) end;
    simpl; lia.
Qed.

Lemma lower_from_ascii U before s :
  Forall (λ c, is_ascii c = true) s → lower_from U before s = ascii_lower <$> s.
Proof.
  intros Hs. revert before. induction Hs as [|c r Hc Hr IH]; intros before; [done|].
  simpl. rewrite Hc, IH. done.
Qed.

Lemma unidecode_ascii U s : Forall (λ c, is_ascii c = true) s → unidecode U s = s.
Proof.
  unfold unidecode. induction 1 as [|c r Hc Hr IH]; [done|].
  by rewrite bind_cons, IH, Hc.
Qed.

Lemma lower_plain U s : Forall plain s → lower U s = s.
Proof.
  intros Hs. unfold lower. rewrite lower_from_ascii.
  - induction Hs as [|c r [_ Hc] Hr IH]; [done|]. csimpl. by rewrite Hc, IH.
  - eapply Forall_impl; [exact Hs|]. by intros c [? _].
Qed.

Lemma unidecode_plain U s : Forall plain s → unidecode U s = s.
Proof.
  intros Hs. apply unidecode_ascii. eapply Forall_impl; [exact Hs|]. by intros c [? _].
Qed.

Lemma plain_sortable_str U x :
  Forall (λ c, is_ascii c = true) x → Forall plain (sortable_str U x).
Proof.
  intros Hx. rewrite sortable_str_unfold. unfold finish_term.
  apply Forall_strip. rewrite Forall_forall. intros c [_ Hc]%list_elem_of_filter.
  revert c Hc. apply Forall_forall. apply Forall_replace.
  { by repeat constructor. }
  apply Forall_drop_article; [done|].
  unfold lower. rewrite lower_from_ascii by done. rewrite unidecode_ascii.
  - apply Forall_fmap. eapply Forall_impl; [exact Hx|]. apply plain_ascii_lower.
  - apply Forall_fmap. eapply Forall_impl; [exact Hx|].
    intros c Hc. by apply plain_ascii_lower.
Qed.

Lemma finish_term_fixed U s : finish_term U (finish_term U s) = finish_term U s.
Proof.
  unfold finish_term at 1.
  set (y := finish_term U s).
  assert (Forall (λ c, negb (is_removed c) ∧ c ≠ 38) y) as Hy.
  { subst y. unfold finish_term. apply Forall_strip. rewrite Forall_forall.
    intros c [Hc Hin]%list_elem_of_filter. split; [done|]. intros ->.
    apply (replace_gone 38 (lit "and") s); [compute_done|exact Hin]. }
  rewrite replace_absent.
  - rewrite filter_all.
    + subst y. unfold finish_term. apply strip_strip.
    + eapply Forall_impl; [exact Hy|]. by intros c [? _].
  - rewrite Forall_forall in Hy. intros Hin. by destruct (Hy _ Hin).
Qed.

(** C4, as stated, fails: "The A Team" becomes "a team", which becomes
    "team". *)
Lemma sortable_str_not_idempotent :
  sortable_str ascii_only (lit "The A Team") = lit "a team" ∧
  sortable_str ascii_only (sortable_str ascii_only (lit "The A Team")) = lit "team" ∧
  sortable_str ascii_only (sortable_str ascii_only (lit "The A Team"))
  ≠ sortable_str ascii_only (lit "The A Team").
Proof. repeat split; [vm_compute; reflexivity..|vm_compute; discriminate]. Qed.

(** Transliteration comes after lower-casing and may bring capitals back:
    with a table that writes the code point 21271 as "Bei ", as [unidecode]
    does, the normalised term is "Bei", and normalising that gives "bei". *)
Lemma capitals_from_transliteration :
  sortable_str with_bei [21271] = lit "Bei" ∧
  sortable_str with_bei (lit "Bei") = lit "bei".
Proof. split; vm_compute; reflexivity. Qed.

(** C4, amended: normalising a normalised term changes nothing unless the
    normalised term itself starts with an article followed by a space, as
    long as lower-casing and transliteration leave the normalised term as
    it is, which they do whenever the term was ASCII. *)
Theorem sortable_str_idempotent U x :
  strips_article (sortable_str U x) = false →
  unidecode U (lower U (sortable_str U x)) = sortable_str U x
  ∨ Forall (λ c, is_ascii c = true) x →
  sortable_str U (sortable_str U x) = sortable_str U x.
Proof.
  intros Harticle Hfixed.
  assert (unidecode U (lower U (sortable_str U x)) = sortable_str U x) as Hy.
  { destruct Hfixed as [?|Hx]; [done|]. apply (plain_sortable_str U) in Hx.
    by rewrite lower_plain, unidecode_plain. }
  rewrite (sortable_str_unfold U (sortable_str U x)), Hy.
  unfold drop_article. rewrite Harticle.
  rewrite (sortable_str_unfold U x). apply finish_term_fixed.
Qed.

Lemma sortable_str_idempotent_witness :
  sortable_str ascii_only (sortable_str ascii_only (lit "The Beatles"))
  = sortable_str ascii_only (lit "The Beatles").
Proof.
  apply (sortable_str_idempotent ascii_only (lit "The Beatles")).
  - vm_compute. reflexivity.
  - right. vm_compute. repeat constructor.
Defined.

(** C8, as stated, fails: with a tab between the article and the name the
    term has two tokens, the first of them an article, and the article
    stays. *)
Lemma article_before_tab_stays :
  tokens ascii_only (unidecode ascii_only (lower ascii_only the_tab_beatles))
  = [lit "the"; lit "beatles"] ∧
  lit "the" ∈ articles ∧
  sortable_str ascii_only the_tab_beatles = lit "the" ++ [9] ++ lit "beatles" ∧
  sortable_str ascii_only the_tab_beatles ≠ sortable_str ascii_only (lit "Beatles").
Proof.
  split; [vm_compute; reflexivity|]. split; [compute_done|].
  split; [vm_compute; reflexivity|]. vm_compute. discriminate.
Qed.

(** C8, amended: the tokens are those between single spaces, as
    [split(" ")] cuts them. When the first of them, after lower-casing and
    transliteration, is an article and there is another one, the article
    and the space after it are dropped before the rest of the
    normalisation; a term of one token is not cut. So "The Beatles" and
    "Beatles" normalise alike, and "The" normalises to "the". *)
Theorem leading_article_dropped U x :
  (∀ a w ws,
     split 32 (unidecode U (lower U x)) = a :: w :: ws →
     a ∈ articles →
     ∃ rest, unidecode U (lower U x) = a ++ 32 :: rest ∧
             split 32 rest = w :: ws ∧
             sortable_str U x = finish_term U rest) ∧
  (32 ∉ unidecode U (lower U x) →
   sortable_str U x = finish_term U (unidecode U (lower U x))) ∧
  sortable_str U (lit "The Beatles") = sortable_str U (lit "Beatles") ∧
  sortable_str U (lit "The") = lit "the".
Proof.
  split; [|split; [|split; vm_compute; reflexivity]].
  - intros a w ws Hsplit Ha. exists (join 32 (w :: ws)).
    pose proof (join_split 32 (unidecode U (lower U x))) as Hjoin.
    rewrite Hsplit, join_cons_cons in Hjoin. split; [done|]. split.
    + assert (32 ∉ a) as Hspace.
      { assert (Forall (λ a : pystr, 32 ∉ a) articles) as Hno by compute_done.
        rewrite Forall_forall in Hno. by apply Hno. }
      rewrite <-Hjoin in Hsplit. clear Hjoin Ha.
      revert Hsplit. generalize (join 32 (w :: ws)) as rest. intros rest.
      induction a as [|c a IH]; simpl.
      * by intros [= ->].
      * apply not_elem_of_cons in Hspace as [Hc Hspace].
        destruct (N.eqb_spec c 32); [done|].
        destruct (split 32 (a ++ 32 :: rest)) as [|w' ws'] eqn:E; [done|].
        intros [= -> ->]. by apply IH.
    + rewrite sortable_str_unfold. f_equal. unfold drop_article, strips_article.
      rewrite Hsplit. cbn [hd tail andb].
      rewrite (bool_decide_eq_true_2 (1 < length (a :: w :: ws))%nat) by (simpl; lia).
      by rewrite (bool_decide_eq_true_2 (a ∈ articles)).
  - intros Hspace. rewrite sortable_str_unfold. f_equal.
    unfold drop_article, strips_article. rewrite (split_no_sep _ _ Hspace).
    by rewrite (bool_decide_eq_false_2 (1 < length [_])%nat) by (simpl; lia).
Qed.

Lemma leading_article_dropped_witness :
  (∃ rest, unidecode ascii_only (lower ascii_only (lit "Die Toten Hosen"))
           = lit "die" ++ 32 :: rest ∧
           split 32 rest = [lit "toten"; lit "hosen"] ∧
           sortable_str ascii_only (lit "Die Toten Hosen") = finish_term ascii_only rest) ∧
  sortable_str ascii_only (lit "Die")
  = finish_term ascii_only (unidecode ascii_only (lower ascii_only (lit "Die"))).
Proof.
  split.
  - apply (proj1 (leading_article_dropped ascii_only (lit "Die Toten Hosen"))
             (lit "die") (lit "toten") [lit "hosen"]).
    + vm_compute. reflexivity.
    + compute_done.
  - apply (proj1 (proj2 (leading_article_dropped ascii_only (lit "Die")))).
    compute_done.
Defined.

(** * More of the script *)

(** ** sortable_term: the shape of a sort key *)



(** X2: on ASCII terms the sort key does not tell capitals from small
    letters: two terms that are alike once lower-cased have one sort key. *)
Theorem sortable_str_ignores_case U x y :
  Forall (λ c, is_ascii c = true) x →
  Forall (λ c, is_ascii c = true) y →
  ascii_lower <$> x = ascii_lower <$> y →
  sortable_str U x = sortable_str U y.
Proof.
  intros Hx Hy Heq. rewrite !sortable_str_unfold. unfold lower.
  by rewrite !lower_from_ascii, Heq.
Qed.

Lemma sortable_str_ignores_case_witness :
  sortable_str ascii_only (lit "ABBA: Gold") = sortable_str ascii_only (lit "Abba: GOLD").
Proof.
  apply (sortable_str_ignores_case ascii_only (lit "ABBA: Gold") (lit "Abba: GOLD")).
  - vm_compute. repeat constructor.
  - vm_compute. repeat constructor.
  - vm_compute. reflexivity.
Defined.

(** ** duration_to_str *)

Lemma zero_pad_two_digits z :
  (0 ≤ z < 100)%Z →
  zero_pad 2 z = [48 + Z.to_N (z / 10); 48 + Z.to_N (z mod 10)].
Proof.
  intros Hz.
  assert (Forall (λ z, zero_pad 2 z = [48 + Z.to_N (z / 10); 48 + Z.to_N (z mod 10)])
            (seqZ 0 100)) as Hall by compute_done.
  rewrite Forall_forall in Hall. apply Hall, elem_of_seqZ. lia.
Qed.

(** X4: the milliseconds are cut off, not rounded, and there is no field
    for the hours: the text is the whole minutes, a colon and the seconds
    left, each of two digits at least; below a hundred minutes it has five
    characters. A duration that is [None], a string or a date is a
    [TypeError]. *)
Theorem duration_to_str_minutes_and_seconds (d : Z) :
  duration_to_str (VInt d)
  = Ok (zero_pad 2 (d / 60000) ++ lit ":" ++ zero_pad 2 (d / 1000 mod 60)) ∧
  duration_to_str (VInt (d - d mod 1000)) = duration_to_str (VInt d) ∧
  ((0 ≤ d < 6000000)%Z →
   ∃ text, duration_to_str (VInt d) = Ok text ∧ length text = 5%nat) ∧
  duration_to_str VNone = Raise TypeError ∧
  (∀ s, duration_to_str (VStr s) = Raise TypeError) ∧
  (∀ t, duration_to_str (VDatetime t) = Raise TypeError).
Proof.
  assert (∀ d, (d / 1000 / 60 = d / 60000)%Z) as Hdiv.
  { intros d'. rewrite Z.div_div by lia. done. }
  split; [|split; [|split; [|done]]].
  - unfold duration_to_str. by rewrite Hdiv.
  - unfold duration_to_str.
    assert ((d - d mod 1000) / 1000 = d / 1000)%Z as ->; [|done].
    pose proof (Z.div_mod d 1000 ltac:(lia)) as Hd.
    replace (d - d mod 1000)%Z with (d / 1000 * 1000)%Z by lia.
    by rewrite Z.div_mul by lia.
  - intros Hd. eexists. split; [reflexivity|].
    rewrite !length_app, !zero_pad_two_digits; [done| |].
    + pose proof (Z.mod_pos_bound (d / 1000) 60 ltac:(lia)). lia.
    + rewrite Hdiv. split; [apply Z.div_pos; lia|].
      apply Z.div_lt_upper_bound; lia.
Qed.

Lemma duration_to_str_minutes_and_seconds_witness :
  ∃ text, duration_to_str (VInt 3599999) = Ok text ∧ length text = 5%nat.
Proof.
  apply (proj1 (proj2 (proj2 (duration_to_str_minutes_and_seconds 3599999)))). lia.
Defined.

(** ** check_quality_requirements at the edges *)

(** X5: unless [force_all] is set, an item without media is an
    [IndexError]; with no flag set, a track whose codec is neither mp3 nor
    aac passes whatever its bitrate is, even [None], and an mp3 or aac track
    whose bitrate is [None] or a string is a [TypeError]. *)
Theorem check_quality_requirements_edges config item :
  truthy (config_get config "upgrade.force_all") = false →
  (media item = [] → check_quality_requirements config item = Raise IndexError) ∧
  (truthy (config_get config "upgrade.force_lossless") = false →
   ∀ m rest, media item = m :: rest →
     (audioCodec m ≠ VStr (lit "mp3") → audioCodec m ≠ VStr (lit "aac") →
      check_quality_requirements config item = Ok true) ∧
     (audioCodec m = VStr (lit "mp3") ∨ audioCodec m = VStr (lit "aac") →
      bitrate m = VNone ∨ (∃ s, bitrate m = VStr s) →
      check_quality_requirements config item = Raise TypeError)).
Proof.
  intros Hall. unfold check_quality_requirements, media0. rewrite Hall. split.
  - intros ->. destruct (truthy (config_get config "upgrade.force_lossless")); reflexivity.
  - intros -> m rest ->. cbn [mbind result_bind]. unfold py_eq. split.
    + intros Hmp3 Haac. by rewrite !bool_decide_eq_false_2.
    + intros [Hc|Hc] Hb; rewrite Hc; destruct Hb as [->|[s ->]]; reflexivity.
Qed.

Lemma check_quality_requirements_edges_witness :
  check_quality_requirements ∅ without_media = Raise IndexError ∧
  check_quality_requirements ∅ (without_bitrate "ogg") = Ok true ∧
  check_quality_requirements ∅ (without_bitrate "mp3") = Raise TypeError.
Proof.
  assert (truthy (config_get ∅ "upgrade.force_all") = false) as Hall
    by (vm_compute; reflexivity).
  assert (truthy (config_get ∅ "upgrade.force_lossless") = false) as Hlossless
    by (vm_compute; reflexivity).
  split; [|split].
  - exact (proj1 (check_quality_requirements_edges ∅ without_media Hall) eq_refl).
  - apply (proj2 (check_quality_requirements_edges ∅ (without_bitrate "ogg") Hall)
             Hlossless _ [] eq_refl); discriminate.
  - apply (proj2 (check_quality_requirements_edges ∅ (without_bitrate "mp3") Hall)
             Hlossless _ [] eq_refl).
    + by left.
    + by left.
Defined.

(** ** question: what comes back *)

Lemma first_r_Some {A} (p : A → result bool) (items : list A) x :
  first_r p items = Ok (Some x) →
  ∃ pre post, items = pre ++ x :: post ∧ p x = Ok true ∧
              Forall (λ y, p y = Ok false) pre.
Proof.
  induction items as [|y items IH]; simpl; [done|].
  destruct (p y) as [[]|] eqn:Hy; simpl; [| |done].
  - intros [= ->]. by exists [], items.
  - intros (pre & post & -> & Hx & Hpre)%IH. exists (y :: pre), post.
    split; [done|]. split; [done|]. by constructor.
Qed.

Lemma question_asks {A} answers message (items : list A) (to_string : A → result pystr)
    (none_choice : bool) w labels :
  length items ≠ 1%nat →
  map_r to_string items = Ok labels →
  let choices := (if none_choice then [lit "None"] else []) ++ labels ++ [abort_choice] in
  let shown := if bool_decide (message = []) then lit "What do you want to do?"
               else message in
  let answer := choose answers shown choices in
  question answers message items to_string none_choice w
  = ((if str_eqb answer abort_choice then Raise SystemExit
      else first_r (λ item, s ← to_string item; Ok (str_eqb s answer)) items),
     {| playlists := playlists w; calls := calls w ++ [Prompted shown choices] |}).
Proof.
  intros Hlen Hlabels. unfold question.
  destruct items as [|x [|y items]]; [|done|];
    unfold bind, lift, prompt, call, ret, raise; rewrite Hlabels; simpl;
    by destruct (str_eqb _ _).
Qed.

(** X6: unless the list has exactly one item, [question] asks once; the
    choices are "None" when asked for, the labels of the items in their
    order, and the entry to abort. Answering with the entry to abort raises
    [SystemExit]; an item that comes back is in the list, its label is the
    answer, and no item before it has that label, so of two items with one
    label the second cannot be chosen. *)
Theorem question_first_with_label
    {A} answers message (items : list A) (to_string : A → result pystr)
    (none_choice : bool) w labels :
  length items ≠ 1%nat →
  map_r to_string items = Ok labels →
  ∃ shown answer,
    let r := question answers message items to_string none_choice w in
    calls r.2
    = calls w ++ [Prompted shown ((if none_choice then [lit "None"] else [])
                                  ++ labels ++ [abort_choice])] ∧
    playlists r.2 = playlists w ∧
    answer = choose answers shown ((if none_choice then [lit "None"] else [])
                                   ++ labels ++ [abort_choice]) ∧
    (answer = abort_choice → r.1 = Raise SystemExit) ∧
    ∀ x, r.1 = Ok (Some x) →
      ∃ pre post, items = pre ++ x :: post ∧ to_string x = Ok answer ∧
                  Forall (λ y, to_string y ≠ Ok answer) pre.
Proof.
  intros Hlen Hlabels. eexists _, _. cbn zeta.
  rewrite (question_asks _ _ _ _ _ _ labels) by done. cbn [fst snd playlists calls].
  split; [done|]. split; [done|]. split; [done|]. split.
  - intros ->. unfold str_eqb. by rewrite bool_decide_eq_true_2.
  - intros x. destruct (str_eqb _ abort_choice); [done|].
    intros (pre & post & -> & Hx & Hpre)%first_r_Some. exists pre, post.
    split; [done|]. split.
    + destruct (to_string x) as [s|]; [|done]. simpl in Hx.
      injection Hx as Hx. unfold str_eqb in Hx. apply bool_decide_eq_true in Hx.
      by subst.
    + eapply Forall_impl; [exact Hpre|]. intros y Hy Heq. simpl in Hy.
      rewrite Heq in Hy. simpl in Hy. injection Hy as Hy. unfold str_eqb in Hy.
      by apply bool_decide_eq_false in Hy.
Qed.

Lemma question_first_with_label_witness :
  ∃ shown answer,
    let r := question (finds [] (lit "Duration")) [] (sort_choices (lit "audio"))
               (λ c, Ok (lit (sc_name c))) false empty_world in
    calls r.2
    = calls empty_world
      ++ [Prompted shown
            ([] ++ map lit ["Title"; "Sorting title"; "Artist name"; "Album artist name";
                            "Album name"; "Duration"; "Shuffle randomly"]%string
             ++ [abort_choice])] ∧
    playlists r.2 = playlists empty_world ∧
    answer = choose (finds [] (lit "Duration")) shown
               ([] ++ map lit ["Title"; "Sorting title"; "Artist name";
                               "Album artist name"; "Album name"; "Duration";
                               "Shuffle randomly"]%string
                ++ [abort_choice]) ∧
    (answer = abort_choice → r.1 = Raise SystemExit) ∧
    ∀ x, r.1 = Ok (Some x) →
      ∃ pre post, sort_choices (lit "audio") = pre ++ x :: post ∧
                  Ok (lit (sc_name x)) = Ok answer ∧
                  Forall (λ y, Ok (lit (sc_name y)) ≠ Ok answer) pre.
Proof.
  apply (question_first_with_label (finds [] (lit "Duration")) []
           (sort_choices (lit "audio")) (λ c, Ok (lit (sc_name c))) false empty_world).
  - vm_compute. lia.
  - vm_compute. reflexivity.
Defined.

(** ** choose_sorting_method *)

Lemma question_labelled {A} answers message (items : list A) (label : A → pystr)
    (none_choice : bool) w :
  length items ≠ 1%nat →
  let choices :=
    (if none_choice then [lit "None"] else []) ++ (label <$> items) ++ [abort_choice] in
  let shown := if bool_decide (message = []) then lit "What do you want to do?"
               else message in
  let answer := choose answers shown choices in
  question answers message items (λ c, Ok (label c)) none_choice w
  = ((if str_eqb answer abort_choice then Raise SystemExit
      else first_r (λ item, Ok (str_eqb (label item) answer)) items),
     {| playlists := playlists w; calls := calls w ++ [Prompted shown choices] |}).
Proof.
  intros Hlen. apply (question_asks answers message items (λ c, Ok (label c))); [done|].
  by apply map_r_Ok.
Qed.

Lemma first_r_member {A} (p : A → result bool) (items : list A) x :
  first_r p items = Ok (Some x) → x ∈ items.
Proof.
  intros (pre & post & -> & _)%first_r_Some. apply elem_of_app. right. left.
Qed.


Lemma sort_choices_length playlist_type : length (sort_choices playlist_type) ≠ 1%nat.
Proof. unfold sort_choices. repeat case_bool_decide; simpl; lia. Qed.



(** ** From the menu to the Sorter *)

Lemma py_sorted_raises U k bk rev xs x :
  x ∈ xs → sort_value U k bk x = Raise AttributeError →
  py_sorted (sort_value U k bk) rev xs = Raise AttributeError.
Proof.
  intros Hx Hraise. unfold py_sorted. rewrite (map_r_Raise _ AttributeError); [done| |].
  - intros y _. destruct (sort_value_cases U k bk y) as [?|[t ?]]; eauto.
  - eauto.
Qed.

Lemma sort_playlist_items_raises
    U rng ty k bk sk bsk rev (heap : list (list Item)) l items x :
  heap !! l = Some items → k ≠ "shuffle"%string → x ∈ items →
  sort_value U k bk x = Raise AttributeError →
  sort_playlist_items U rng ty k bk sk bsk rev heap l = Raise AttributeError.
Proof.
  intros Hl Hk Hx Hraise. unfold sort_playlist_items. rewrite Hl.
  rewrite bool_decide_eq_false_2 by done. destruct (_ && _).
  - destruct (py_sorted_sort_value_cases U sk bsk rev items) as [->|(mid & -> & Hmid)];
      [done|].
    cbn [mbind result_bind]. rewrite (py_sorted_raises _ _ _ _ _ x); [done| |done].
    by rewrite Hmid.
  - cbn [mbind result_bind]. by rewrite (py_sorted_raises _ _ _ _ _ x).
Qed.

Lemma first_r_duration playlist_type :
  first_r (λ item, Ok (str_eqb (lit (sc_name item)) (lit "Duration")))
    (sort_choices playlist_type)
  = Ok (Some {| sc_name := "Duration"; sc_key := "duration"; sc_backup_key := None;
                sc_secondary_key := Some "title"%string;
                sc_secondary_backup_key := None |}).
Proof. unfold sort_choices. repeat case_bool_decide; vm_compute; reflexivity. Qed.

(** X8: the menu offers "Duration" for every kind of playlist; whoever
    picks it, in either direction, gets the keys "duration", "duration",
    "title", "duration", and with these keys the Sorter raises
    [AttributeError] on every playlist that holds an item whose duration is
    an integer: the choice cannot succeed but on playlists without such
    items. *)
Theorem sorting_on_duration_fails answers playlist_type w (direction : DirectionChoice) :
  answers_to answers
    (lit "Select the sorting key for this " ++ playlist_type ++ lit " playlist")
    (lit "Duration") →
  direction ∈ sorting_choices →
  answers_to answers (lit "Select the sorting direction for Duration")
    (lit (dc_name direction)) →
  ∃ w', choose_sorting_method answers playlist_type w
        = (Ok ("duration", "duration", "title", "duration", dc_reverse direction)%string,
           w') ∧
    ∀ U rng (heap : list (list Item)) l items x z,
      heap !! l = Some items → x ∈ items →
      attrs x !! "duration"%string = Some (VInt z) →
      sort_playlist_items U rng playlist_type "duration" "duration" "title" "duration"
        (dc_reverse direction) heap l = Raise AttributeError.
Proof.
  intros Hduration Hdirection Hpick. eexists. split.
  - unfold choose_sorting_method, bind.
    rewrite question_labelled by apply sort_choices_length. cbn zeta.
    rewrite (bool_decide_eq_false_2 (_ ++ _ = [])) by done.
    rewrite !Hduration.
    assert (str_eqb (lit "Duration") abort_choice = false) as -> by (vm_compute; done).
    rewrite first_r_duration.
    rewrite bool_decide_eq_false_2 by discriminate.
    rewrite question_labelled by (simpl; lia). cbn zeta.
    rewrite (bool_decide_eq_false_2 (_ ++ _ = [])) by done.
    change (lit "Select the sorting direction for " ++ lit "Duration")
      with (lit "Select the sorting direction for Duration").
    rewrite !Hpick.
    unfold sorting_choices in Hdirection |- *.
    apply elem_of_cons in Hdirection as [->|Hdirection];
      [vm_compute; reflexivity|].
    apply list_elem_of_singleton in Hdirection as ->. vm_compute. reflexivity.
  - intros U rng heap l items x z Hl Hx Hz.
    apply (sort_playlist_items_raises _ _ _ _ _ _ _ _ _ _ items x); [done..|].
    unfold sort_value, getattr. rewrite Hz. cbn [mbind result_bind].
    by rewrite bool_decide_eq_true_2.
Qed.

Lemma sorting_on_duration_fails_witness :
  ∃ w', choose_sorting_method (by_question (lit "Duration") (lit "Sort descending"))
          (lit "video") empty_world
        = (Ok ("duration", "duration", "title", "duration", true)%string, w') ∧
    ∀ U rng (heap : list (list Item)) l items x z,
      heap !! l = Some items → x ∈ items →
      attrs x !! "duration"%string = Some (VInt z) →
      sort_playlist_items U rng (lit "video") "duration" "duration" "title" "duration"
        true heap l = Raise AttributeError.
Proof.
  apply (sorting_on_duration_fails (by_question (lit "Duration") (lit "Sort descending"))
           (lit "video") empty_world
           {| dc_name := "Sort descending"; dc_reverse := true |}).
  - intros choices. vm_compute. reflexivity.
  - vm_compute. right. left.
  - intros choices. vm_compute. reflexivity.
Defined.

(** ** The Sorter on playlists that are not audio *)

Lemma one_pass_run U rng playlist_type k bk sk bsk (rev : bool)
    (heap : list (list Item)) l items (primary : Item → pystr) :
  heap !! l = Some items →
  playlist_type ≠ lit "audio" →
  k ≠ "shuffle"%string →
  (∀ x, x ∈ items → sort_value U k bk x = Ok (VStr (primary x))) →
  sort_playlist_items U rng playlist_type k bk sk bsk rev heap l
  = Ok (heap ++ [sort_with (λ x y, str_le (primary x) (primary y)) rev items], length heap).
Proof.
  intros Hl Hty Hk Hkeys. unfold sort_playlist_items. rewrite Hl.
  rewrite (bool_decide_eq_false_2 (k = "shuffle"%string)) by done.
  rewrite (bool_decide_eq_false_2 (playlist_type = lit "audio")) by done.
  rewrite andb_false_r. cbn [mbind result_bind].
  by rewrite (py_sorted_str _ primary).
Qed.

Lemma sort_with_sorted {A} (le : A → A → bool) (rev : bool) (items : list A) i j x y :
  (∀ x y, le x y = true ∨ le y x = true) →
  (∀ x y z, le x y = true → le y z = true → le x z = true) →
  (i < j)%nat →
  sort_with le rev items !! i = Some x →
  sort_with le rev items !! j = Some y →
  (if rev then le y x else le x y) = true.
Proof.
  intros Htot Htrans Hij Hi Hj.
  assert (StronglySorted (towards rev (λ _ _ : A, True)) items) as Hany.
  { eapply StronglySorted_impl with (R := λ _ _, True).
    - unfold towards, flip. by destruct rev.
    - clear. induction items; constructor; [done|]. by apply Forall_true. }
  pose proof (sort_with_then_by le (λ _ _, True) rev items Htot Htrans Hany) as Hs.
  pose proof (StronglySorted_lookup _ _ i j x y Hs Hij Hi Hj) as Hxy.
  unfold towards, then_by, flip in Hxy. destruct rev; by destruct Hxy.
Qed.

Lemma sort_with_str_le_sorted {A} (primary : A → pystr) (rev : bool) (items : list A)
    i j x y :
  (i < j)%nat →
  sort_with (λ x y, str_le (primary x) (primary y)) rev items !! i = Some x →
  sort_with (λ x y, str_le (primary x) (primary y)) rev items !! j = Some y →
  (if rev then str_le (primary y) (primary x)
   else str_le (primary x) (primary y)) = true.
Proof.
  apply (sort_with_sorted (λ x y, str_le (primary x) (primary y))).
  - intros a b. apply str_le_total.
  - intros a b c. apply str_le_trans.
Qed.



(** ** sort_playlist as a whole *)

Lemma sort_playlist_items_Permutation U rng ty k bk sk bsk rev
    (heap heap' : list (list Item)) l l' items :
  heap !! l = Some items →
  sort_playlist_items U rng ty k bk sk bsk rev heap l = Ok (heap', l') →
  ∃ out, heap' !! l' = Some out ∧ out ≡ₚ items.
Proof.
  intros Hl. unfold sort_playlist_items. rewrite Hl. case_bool_decide.
  - intros [= <- <-]. exists (shuffle rng items). split; [|apply shuffle_Permutation].
    apply list_lookup_insert_eq. by eapply lookup_lt_Some.
  - destruct (_ && _).
    + destruct (py_sorted _ rev items) as [s1|e] eqn:H1; [|done]. cbn [mbind result_bind].
      destruct (py_sorted _ rev s1) as [s2|e] eqn:H2; [|done]. cbn [mbind result_bind].
      intros [= <- <-]. exists s2. split.
      * by rewrite lookup_app_r, Nat.sub_diag by lia.
      * apply py_sorted_Permutation in H1, H2. by rewrite H2.
    + cbn [mbind result_bind].
      destruct (py_sorted _ rev items) as [s2|e] eqn:H2; [|done]. cbn [mbind result_bind].
      intros [= <- <-]. exists s2. split.
      * by rewrite lookup_app_r, Nat.sub_diag by lia.
      * by apply py_sorted_Permutation in H2.
Qed.

Lemma map_r_getattr name (items : list Item) :
  Forall (λ x, is_Some (attrs x !! name)) items →
  ∃ values, map_r (λ item, getattr item name) items = Ok values.
Proof.
  induction 1 as [|x items [v Hv] _ [values IH]]; [by eexists|].
  assert (getattr x name = Ok v) as Hx by (unfold getattr; by rewrite Hv).
  cbn [map_r]. rewrite Hx, IH. by eexists.
Qed.

Lemma playlist_create_empty p w :
  pl_items p = [] → playlist_create p w = (Raise BadRequest, w).
Proof. intros Hp. unfold playlist_create. by rewrite Hp. Qed.

Lemma playlist_create_creatable p w :
  creatable (pl_items p) →
  playlist_create p w
  = (Ok (length (playlists w)),
     {| playlists := playlists w ++ [created p (list_type (pl_items p))];
        calls := calls w ++ [Created (created p (list_type (pl_items p)))] |}).
Proof.
  unfold playlist_create, creatable, list_type.
  destruct (pl_items p) as [|first rest] eqn:Hp; [done|]. intros [[t Ht] Hkeys].
  destruct (map_r_getattr _ _ Hkeys) as [values Hvalues].
  unfold bind, lift, getattr at 1. rewrite Ht, Hvalues. done.
Qed.

(** X10: with [duplicate] the playlist that was chosen is left as it is.
    Where the ordering stage raises, the exception leaves [sort_playlist]
    and the server is as before. Where it returns a list, the list holds
    the items of the original in another order; if it is empty,
    [Playlist.create] is a [BadRequest] and the server is as before, and if
    [Playlist.create] accepts it, one playlist is created, named "Copy of "
    and the title, with that list as its items, and this new playlist is
    what comes back. *)
Theorem sort_playlist_duplicate U rng playlist k bk sk bsk rev w p :
  playlists w !! playlist = Some p →
  let ordered := sort_playlist_items U rng (pl_type p) k bk sk bsk rev [pl_items p] 0 in
  (∀ e, ordered = Raise e →
     sort_playlist U rng playlist k bk sk bsk rev true w = (Raise e, w)) ∧
  (∀ heap l, ordered = Ok (heap, l) →
     ∃ items,
       heap !! l = Some items ∧ items ≡ₚ pl_items p ∧
       (items = [] →
        sort_playlist U rng playlist k bk sk bsk rev true w = (Raise BadRequest, w)) ∧
       (creatable items →
        ∃ copy,
          pl_title copy = lit "Copy of " ++ pl_title p ∧ pl_items copy = items ∧
          sort_playlist U rng playlist k bk sk bsk rev true w
          = (Ok (length (playlists w)),
             {| playlists := playlists w ++ [copy];
                calls := calls w ++ [Created copy] |}))).
Proof.
  intros Hp ordered. subst ordered.
  unfold sort_playlist, bind, the_playlist, playlist_items, lift.
  rewrite Hp. cbv beta iota. rewrite Hp. cbv beta iota. split.
  - by intros e ->.
  - intros heap l Hs.
    destruct (sort_playlist_items_Permutation U rng (pl_type p) k bk sk bsk rev
                [pl_items p] heap 0 l (pl_items p) eq_refl Hs) as (out & Hout & Hperm).
    exists out. split; [done|]. split; [done|]. revert Hs. intros ->.
    cbn [mbind result_bind]. rewrite Hout. cbn [default]. change (id out) with out. split.
    + intros ->. by apply playlist_create_empty.
    + intros Hcreatable. eexists. split; [|split; [|by apply playlist_create_creatable]];
        done.
Qed.

Lemma sort_playlist_duplicate_witness :
  let sorted := [listed (track 4 "Four" "Abbey Road" "" "Aaron" "mp3" 320);
                 listed (track 1 "One" "The Wall" "" "Pink Floyd" "mp3" 320);
                 listed (track 3 "Three" "The Wall" "Anna" "Various" "mp3" 320);
                 listed (track 2 "Two" "Abbey Road" "Beatles" "Various" "mp3" 320)] in
  ∃ copy,
    pl_title copy = lit "Copy of Mix" ∧ pl_items copy = sorted ∧
    sort_playlist ascii_only (λ _, 0%nat) 0 "title" "title" "" "" false true listed_world
    = (Ok 1%nat, {| playlists := playlists listed_world ++ [copy];
                    calls := [Created copy] |}).
Proof.
  destruct (sort_playlist_duplicate ascii_only (λ _, 0%nat) 0 "title" "title" "" "" false
              listed_world _ eq_refl) as [_ Hok].
  destruct (Hok _ _ eq_refl) as (items & Hitems & _ & _ & Hrun).
  vm_compute in Hitems. injection Hitems as <-. apply Hrun.
  split; [by eexists|]. repeat constructor; by eexists.
Defined.

(** *** The loop of [moveItem] *)

Lemma take_first_app x x' (d t : list Item) :
  (∀ y, y ∈ d → rating_key y ≠ rating_key x) →
  rating_key x' = rating_key x →
  take_first x (d ++ x' :: t) = Some (x', d ++ t).
Proof.
  intros Hd Hx. induction d as [|y d IH]; simpl.
  - unfold same_track. by rewrite bool_decide_eq_true_2.
  - unfold same_track at 1. rewrite bool_decide_eq_false_2.
    + rewrite IH; [done|]. intros z Hz. apply Hd. by right.
    + apply Hd. by left.
Qed.

Lemma take_first_member x (l : list Item) : x ∈ l → is_Some (take_first x l).
Proof.
  induction l as [|y l IH]; [by intros ?%elem_of_nil|]. simpl. intros Hx.
  unfold same_track at 1. case_bool_decide as Hy; [by eexists|].
  apply elem_of_cons in Hx as [->|Hx]; [done|].
  destruct (IH Hx) as [[found rest] ->]. by eexists.
Qed.

Lemma put_after_app a a' e (d t : list Item) :
  (∀ y, y ∈ d → rating_key y ≠ rating_key a) →
  rating_key a' = rating_key a →
  put_after a e (d ++ a' :: t) = Some (d ++ a' :: e :: t).
Proof.
  intros Hd Ha. induction d as [|y d IH]; simpl.
  - unfold same_track. by rewrite bool_decide_eq_true_2.
  - unfold same_track at 1. rewrite bool_decide_eq_false_2.
    + rewrite IH; [done|]. intros z Hz. apply Hd. by right.
    + apply Hd. by left.
Qed.

Lemma set_items_with_items id items w p :
  playlists w !! id = Some p →
  set_items id items w = (Ok (), with_items id items w).
Proof. intros Hp. unfold with_items, set_items. by rewrite Hp. Qed.

Lemma with_items_lookup id items w p :
  playlists w !! id = Some p →
  playlists (with_items id items w) !! id
  = Some {| pl_title := pl_title p; pl_summary := pl_summary p;
            pl_type := pl_type p; pl_items := items |}.
Proof.
  intros Hp. unfold with_items, set_items. rewrite Hp. simpl.
  apply list_lookup_insert_eq. by eapply lookup_lt_Some.
Qed.

Lemma with_items_twice id a b w :
  with_items id b (with_items id a w) = with_items id b w.
Proof.
  unfold with_items, set_items.
  destruct (playlists w !! id) as [p|] eqn:Hp; simpl; [|by rewrite Hp].
  rewrite list_lookup_insert_eq by (by eapply lookup_lt_Some). simpl.
  by rewrite list_insert_insert_eq.
Qed.

Lemma with_items_same id w p :
  playlists w !! id = Some p → with_items id (pl_items p) w = w.
Proof.
  intros Hp. unfold with_items, set_items. rewrite Hp. simpl.
  destruct w as [ps cs], p as [t s ty its]; simpl in *. f_equal.
  by apply list_insert_id.
Qed.

Lemma NoDup_rating_key_apart (l k : list Item) x y :
  NoDup (rating_key <$> (l ++ k)) → y ∈ l → x ∈ k → rating_key y ≠ rating_key x.
Proof.
  rewrite fmap_app. intros (_ & Hapart & _)%NoDup_app Hy Hx Heq.
  apply (Hapart (rating_key y)); [by apply list_elem_of_fmap_2|].
  rewrite Heq. by apply list_elem_of_fmap_2.
Qed.

Lemma move_all_sorts id (todo : list Item) :
  ∀ done rest w p,
    playlists w !! id = Some p →
    pl_items p = done ++ rest →
    rest ≡ₚ todo →
    NoDup (rating_key <$> (done ++ todo)) →
    move_all id todo (last done) w = (Ok (), with_items id (done ++ todo) w).
Proof.
  induction todo as [|x todo IH]; intros done rest w p Hp Hitems Hperm Hnd.
  { apply Permutation_nil_r in Hperm as ->. simpl. unfold ret.
    rewrite <- Hitems. by erewrite with_items_same. }
  assert (x ∈ rest) as Hx by (rewrite Hperm; by left).
  apply list_elem_of_split in Hx as (r1 & r2 & ->).
  assert (r1 ++ r2 ≡ₚ todo) as Hperm'.
  { apply (Permutation_cons_inv (a := x)). by rewrite Permutation_middle. }
  assert (NoDup (rating_key <$> (r1 ++ x :: r2))) as Hrest.
  { rewrite Hperm. rewrite fmap_app in Hnd. by apply NoDup_app in Hnd as (_ & _ & ?). }
  assert (take_first x (pl_items p) = Some (x, done ++ r1 ++ r2)) as Htake.
  { rewrite Hitems, (assoc_L (++)), take_first_app, <- (assoc_L (++)); [done| |done].
    intros y [Hy|Hy]%elem_of_app.
    - eapply NoDup_rating_key_apart; [exact Hnd|done|by left].
    - eapply NoDup_rating_key_apart; [exact Hrest|done|by left]. }
  assert (NoDup (rating_key <$> ((done ++ [x]) ++ todo))) as Hnd'.
  { by rewrite <- (assoc_L (++)). }
  assert (moveItem id x (last done) w = (Ok (), with_items id ((done ++ [x]) ++ r1 ++ r2) w))
    as Hmove.
  { unfold moveItem, bind, playlist_items. rewrite Hp. cbv beta iota. rewrite Htake.
    destruct (last done) as [a|] eqn:Hlast.
    - apply last_Some in Hlast as [d ->].
      destruct (take_first_member a (pl_items p)) as [? ->].
      { rewrite Hitems. apply elem_of_app. left. apply elem_of_app. right. by left. }
      rewrite <- !(assoc_L (++)). simpl.
      rewrite (put_after_app a a x d (r1 ++ r2)); [|  |done].
      + by eapply set_items_with_items.
      + intros y Hy. rewrite fmap_app in Hnd. apply NoDup_app in Hnd as (Hdone & _ & _).
        rewrite fmap_app in Hdone. eapply NoDup_rating_key_apart; [|done|].
        * rewrite fmap_app. exact Hdone.
        * by left.
    - apply last_None in Hlast as ->. simpl. by eapply set_items_with_items. }
  cbn [move_all]. unfold bind at 1. rewrite Hmove.
  replace (Some x) with (last (done ++ [x])) by apply last_snoc.
  erewrite (IH (done ++ [x]) (r1 ++ r2)); [| by eapply with_items_lookup | done | done | done].
  by rewrite with_items_twice, <- (assoc_L (++)).
Qed.

(** X11: without [duplicate], on a playlist in which no two entries are the
    same track, the loop of [moveItem] leaves the playlist with exactly the
    list the ordering stage returned, in that order: title, summary and type
    are as before, no playlist is created, nothing is added or removed, and
    the playlist itself comes back. Where the ordering stage raises, the
    playlist is as it was. *)
Theorem sort_playlist_in_place U rng playlist k bk sk bsk rev w p :
  playlists w !! playlist = Some p →
  NoDup (rating_key <$> pl_items p) →
  let ordered := sort_playlist_items U rng (pl_type p) k bk sk bsk rev [pl_items p] 0 in
  (∀ e, ordered = Raise e →
     sort_playlist U rng playlist k bk sk bsk rev false w = (Raise e, w)) ∧
  (∀ heap l, ordered = Ok (heap, l) →
     ∃ items,
       heap !! l = Some items ∧ items ≡ₚ pl_items p ∧
       sort_playlist U rng playlist k bk sk bsk rev false w
       = (Ok playlist,
          {| playlists := <[playlist := {| pl_title := pl_title p;
                                           pl_summary := pl_summary p;
                                           pl_type := pl_type p;
                                           pl_items := items |}]> (playlists w);
             calls := calls w |})).
Proof.
  intros Hp Hnd ordered. subst ordered.
  unfold sort_playlist, bind, the_playlist, playlist_items, lift.
  rewrite Hp. cbv beta iota. rewrite Hp. cbv beta iota. split.
  - by intros e ->.
  - intros heap l Hs.
    destruct (sort_playlist_items_Permutation U rng (pl_type p) k bk sk bsk rev
                [pl_items p] heap 0 l (pl_items p) eq_refl Hs) as (out & Hout & Hperm).
    exists out. split; [done|]. split; [done|]. revert Hs. intros ->.
    cbn [mbind result_bind]. rewrite Hout. cbn [default]. unfold bind, ret.
    pose proof (move_all_sorts playlist out [] (pl_items p) w p Hp eq_refl) as Hmove.
    cbn [last app] in Hmove. change (id out) with out. rewrite Hmove.
    + unfold with_items, set_items. by rewrite Hp.
    + by symmetry.
    + by rewrite Hperm.
Qed.

Lemma sort_playlist_in_place_witness :
  sort_playlist ascii_only (λ _, 0%nat) 0 "title" "title" "" "" true false four_world
  = (Ok 0%nat,
     {| playlists :=
          [ {| pl_title := lit "Mix"; pl_summary := VNone; pl_type := lit "audio";
               pl_items := [track 2 "Two" "Abbey Road" "Beatles" "Various" "mp3" 320;
                            track 3 "Three" "The Wall" "Anna" "Various" "mp3" 320;
                            track 1 "One" "The Wall" "" "Pink Floyd" "mp3" 320;
                            track 4 "Four" "Abbey Road" "" "Aaron" "mp3" 320] |} ];
        calls := [] |}).
Proof.
  assert (NoDup (rating_key <$> four_tracks)) as Hnd by compute_done.
  destruct (sort_playlist_in_place ascii_only (λ _, 0%nat) 0 "title" "title" "" "" true
              four_world _ eq_refl Hnd) as [_ Hok].
  destruct (Hok _ _ eq_refl) as (items & Hitems & _ & Hrun).
  vm_compute in Hitems. injection Hitems as <-. exact Hrun.
Defined.

(** ** upgrade_playlist: what the analysis collects *)

Lemma filter_r_Ok {A} (p : A → result bool) (xs out : list A) :
  filter_r p xs = Ok out → ∀ x, x ∈ out → x ∈ xs ∧ p x = Ok true.
Proof.
  revert out. induction xs as [|y xs IH]; intros out; simpl.
  { intros [= <-] x Hx. by apply elem_of_nil in Hx. }
  destruct (p y) as [b|] eqn:Hy; [|done]. cbn [mbind result_bind].
  destruct (filter_r p xs) as [ys|]; [|done]. cbn [mbind result_bind].
  intros [= <-] x Hx. destruct b.
  - apply elem_of_cons in Hx as [->|Hx]; [split; [by left|done]|].
    destruct (IH ys eq_refl x Hx). split; [by right|done].
  - destruct (IH ys eq_refl x Hx). split; [by right|done].
Qed.

Lemma find_replacements_sound U answers item w reps w' :
  find_replacements U answers item w = (Ok reps, w') →
  ∀ r, r ∈ reps → upgrade_of U item r.
Proof.
  unfold find_replacements, bind, lift.
  destruct (library_search U answers item w) as [[found|e] w1]; [|done].
  destruct (filter_r (higher_bitrate item) found) as [higher|e] eqn:Hh; [|done].
  destruct (filter_r (artist_within U item) higher) as [within|e] eqn:Ha; [|done].
  intros [= Hrank <-] r Hr.
  unfold rank_replacements in Hrank.
  destruct (py_sorted artist_key false within) as [s1|] eqn:H1; [|done].
  cbn [mbind result_bind] in Hrank.
  apply py_sorted_Permutation in H1, Hrank.
  rewrite Hrank, H1 in Hr.
  destruct (filter_r_Ok _ _ _ Ha r Hr) as [Hr' Hwithin].
  destruct (filter_r_Ok _ _ _ Hh r Hr') as [_ Hhigher].
  by split.
Qed.

Lemma question_member {A} answers message (items : list A) (to_string : A → result pystr)
    (none_choice : bool) w r w' :
  question answers message items to_string none_choice w = (Ok (Some r), w') → r ∈ items.
Proof.
  destruct (decide (length items = 1%nat)) as [Hlen|Hlen].
  - destruct items as [|x [|y items]]; try done. intros [= <- _]. by left.
  - destruct (map_r to_string items) as [labels|e] eqn:Hlabels.
    + rewrite (question_asks answers message items to_string none_choice w labels)
        by done.
      cbv zeta. destruct (str_eqb _ _); [done|]. intros [= Hr _].
      by apply first_r_member in Hr.
    + unfold question, bind, lift. rewrite Hlabels.
      by destruct items as [|x [|y items]].
Qed.

Lemma upgrade_item_cases U config answers simple_mode item ls w ls' w' :
  upgrade_item U config answers simple_mode item ls w = (Ok ls', w') →
  (check_quality_requirements config item = Ok true ∧ ls' = ls) ∨
  (check_quality_requirements config item = Ok false ∧
   (ls' = ommited item ls ∨ ∃ r, upgrade_of U item r ∧ ls' = replaced item r ls)).
Proof.
  unfold upgrade_item, bind, lift, print, ret.
  destruct (check_quality_requirements config item) as [[]|e]; [| |done].
  { unfold bind, lift, ret. destruct (audio_to_str item); [|done].
    intros [= <- _]. by left. }
  unfold bind, lift, ret. destruct (audio_to_str item) as [label|]; [|done].
  destruct (find_replacements U answers item w) as [[reps|e] w1] eqn:Hfind; [|done].
  pose proof (find_replacements_sound _ _ _ _ _ _ Hfind) as Hsound.
  destruct reps as [|best reps].
  { intros [= <- _]. right. split; [done|]. by left. }
  destruct simple_mode.
  - destruct (audio_to_str best); [|done]. intros [= <- _].
    right. split; [done|]. right. exists best. split; [|done]. apply Hsound. by left.
  - destruct (question _ _ _ _ _ w1) as [[[r|]|e] w2] eqn:Hq; [| |done].
    + destruct (audio_to_str r); [|done]. intros [= <- _].
      right. split; [done|]. right. exists r. split; [|done].
      apply Hsound. by eapply question_member.
    + intros [= <- _]. right. split; [done|]. by left.
Qed.

Lemma failing_cons config item items :
  failing config (item :: items)
  = if bool_decide (check_quality_requirements config item = Ok false)
    then item :: failing config items else failing config items.
Proof.
  unfold failing. rewrite filter_cons. case_bool_decide; by case_decide.
Qed.

Lemma upgrade_items_collects U config answers simple_mode items :
  ∀ ls w ls' w',
    upgrade_items U config answers simple_mode items ls w = (Ok ls', w') →
    ∃ rem add om,
      items_to_remove ls' = items_to_remove ls ++ rem ∧
      items_to_add ls' = items_to_add ls ++ add ∧
      items_ommited ls' = items_ommited ls ++ om ∧
      Forall2 (upgrade_of U) rem add ∧
      rem ++ om ≡ₚ failing config items ∧
      sublist rem (failing config items) ∧
      sublist om (failing config items).
Proof.
  induction items as [|item items IH]; intros ls w ls' w'; simpl.
  { intros [= <- _]. exists [], [], []. rewrite !app_nil_r.
    repeat split; try done; constructor. }
  unfold bind.
  destruct (upgrade_item U config answers simple_mode item ls w) as [[ls1|e] w1] eqn:Hitem;
    [|done].
  intros (rem & add & om & Hrem & Hadd & Hom & Hpairs & Hperm & Hsub1 & Hsub2)%IH.
  rewrite failing_cons.
  apply upgrade_item_cases in Hitem as [[Hgood ->]|[Hbad [->|(r & Hr & ->)]]].
  - rewrite Hgood, bool_decide_eq_false_2 by done. by exists rem, add, om.
  - rewrite Hbad, bool_decide_eq_true_2 by done. simpl in *.
    exists rem, add, (item :: om). rewrite <- (assoc_L (++)) in Hom.
    repeat split; try done.
    + by rewrite <- Permutation_middle, Hperm.
    + by apply sublist_cons.
    + by apply sublist_skip.
  - rewrite Hbad, bool_decide_eq_true_2 by done. simpl in *.
    exists (item :: rem), (r :: add), om. rewrite <- (assoc_L (++)) in Hrem, Hadd.
    repeat split; try done.
    + by constructor.
    + simpl. by rewrite Hperm.
    + by apply sublist_skip.
    + by apply sublist_cons.
Qed.



(** ** upgrade_playlist: the modifications *)

Lemma remove_first_NoDup x (cur : list Item) :
  x ∈ cur → NoDup (rating_key <$> cur) →
  remove_first x cur = Some (filter (λ y, rating_key y ≠ rating_key x) cur).
Proof.
  induction cur as [|y cur IH]; [by intros ?%elem_of_nil|].
  rewrite fmap_cons, NoDup_cons. intros Hx [Hy Hnd]. simpl. unfold same_track at 1.
  fold (rating_key y). fold (rating_key x). rewrite filter_cons.
  case_bool_decide as Hk.
  - rewrite decide_False by (by intros ?). f_equal. symmetry. apply filter_all.
    apply Forall_forall. intros z Hz Hzx. apply Hy. rewrite Hk, <- Hzx.
    by apply list_elem_of_fmap_2.
  - rewrite decide_True by done. apply elem_of_cons in Hx as [->|Hx]; [done|].
    by rewrite IH.
Qed.

Lemma filter_sublist {A} (P : A → Prop) `{∀ x, Decision (P x)} (l k : list A) :
  sublist l k → sublist (filter P l) (filter P k).
Proof.
  induction 1 as [|x l k Hs IH|x l k Hs IH]; [constructor| |].
  - rewrite !filter_cons. destruct (decide (P x)); [by constructor|done].
  - rewrite filter_cons. destruct (decide (P x)); [by constructor|done].
Qed.

Lemma without_nil (cur : list Item) : without [] cur = cur.
Proof.
  unfold without. apply filter_all, Forall_forall. intros x _. apply not_elem_of_nil.
Qed.

Lemma without_cons x rem (cur : list Item) :
  without rem (filter (λ y, rating_key y ≠ rating_key x) cur) = without (x :: rem) cur.
Proof.
  unfold without. induction cur as [|y cur IH]; [done|].
  rewrite !filter_cons. destruct (decide (rating_key y ≠ rating_key x)) as [Hy|Hy].
  - rewrite filter_cons, IH.
    destruct (decide (rating_key y ∉ rating_key <$> rem)) as [Hr|Hr].
    + rewrite decide_True; [done|]. rewrite fmap_cons, not_elem_of_cons. done.
    + rewrite decide_False; [done|]. rewrite fmap_cons, not_elem_of_cons. tauto.
  - rewrite IH, decide_False; [done|]. rewrite fmap_cons, not_elem_of_cons.
    intros [? _]. done.
Qed.

Lemma remove_each_sublist id (rem : list Item) :
  ∀ cur w p,
    playlists w !! id = Some p →
    pl_items p = cur →
    sublist rem cur →
    NoDup (rating_key <$> cur) →
    remove_each id rem w = (Ok (), with_items id (without rem cur) w).
Proof.
  induction rem as [|x rem IH]; intros cur w p Hp Hcur Hsub Hnd.
  { simpl. unfold ret. rewrite without_nil, <- Hcur. by erewrite with_items_same. }
  assert (x ∈ cur) as Hx by (eapply elem_of_sublist; [by left|done]).
  set (cur' := filter (λ y, rating_key y ≠ rating_key x) cur).
  assert (sublist rem cur') as Hsub'.
  { replace rem with (filter (λ y, rating_key y ≠ rating_key x) rem).
    - apply filter_sublist. etrans; [|exact Hsub]. by apply sublist_cons.
    - apply filter_all, Forall_forall. intros y Hy Hyx.
      assert (NoDup (rating_key <$> x :: rem)) as Hnd'.
      { eapply sublist_NoDup; [exact Hnd|]. by apply fmap_sublist. }
      rewrite fmap_cons in Hnd'. apply NoDup_cons in Hnd' as [Hnot _].
      apply Hnot. rewrite <- Hyx. by apply list_elem_of_fmap_2. }
  assert (NoDup (rating_key <$> cur')) as Hnd'.
  { eapply sublist_NoDup; [exact Hnd|]. apply fmap_sublist, sublist_filter. }
  cbn [remove_each]. unfold bind, playlist_items. rewrite Hp. cbv beta iota.
  rewrite Hcur, remove_first_NoDup by done. fold cur'.
  rewrite (set_items_with_items id cur' w p Hp).
  erewrite (IH cur'); [| by eapply with_items_lookup | done | done | done].
  rewrite with_items_twice. unfold cur'. by rewrite without_cons.
Qed.

Lemma without_Permutation (rem cur : list Item) :
  sublist rem cur → NoDup (rating_key <$> cur) → without rem cur ++ rem ≡ₚ cur.
Proof.
  induction 1 as [|x rem cur Hs IH|x rem cur Hs IH]; [done| |];
    rewrite fmap_cons, NoDup_cons; intros [Hx Hnd].
  - rewrite <- without_cons, filter_cons, decide_False by (by intros ?).
    rewrite filter_all.
    + by rewrite <- Permutation_middle, IH.
    + apply Forall_forall. intros y Hy Hyx. apply Hx. rewrite <- Hyx.
      by apply list_elem_of_fmap_2.
  - unfold without at 1. rewrite filter_cons, decide_True.
    + fold (without rem cur). simpl. by rewrite IH.
    + intros Hin. apply Hx. eapply elem_of_sublist; [exact Hin|]. by apply fmap_sublist.
Qed.

Lemma print_all_printable items w :
  Forall printable items → print_all items w = (Ok (), w).
Proof.
  induction 1 as [|x items [s Hs] _ IH]; [done|].
  simpl. unfold bind, print, bind, lift, ret. by rewrite Hs.
Qed.

Lemma upgrade_item_printable U config answers simple_mode item ls w ls' w' :
  upgrade_item U config answers simple_mode item ls w = (Ok ls', w') →
  ls' = ls ∨ (printable item ∧ ls' = ommited item ls) ∨
  ∃ r, printable item ∧ printable r ∧ ls' = replaced item r ls.
Proof.
  unfold upgrade_item, bind, lift, print, ret.
  destruct (check_quality_requirements config item) as [[]|e]; [| |done].
  { unfold bind, lift, ret. destruct (audio_to_str item); [|done].
    intros [= <- _]. by left. }
  unfold bind, lift, ret. destruct (audio_to_str item) as [label|] eqn:Hitem; [|done].
  destruct (find_replacements U answers item w) as [[reps|e] w1]; [|done].
  destruct reps as [|best reps].
  { intros [= <- _]. right. left. split; [by eexists|done]. }
  destruct simple_mode.
  - destruct (audio_to_str best) eqn:Hbest; [|done]. intros [= <- _].
    right. right. exists best. split; [by eexists|]. split; [by eexists|done].
  - destruct (question _ _ _ _ _ w1) as [[[r|]|e] w2]; [| |done].
    + destruct (audio_to_str r) eqn:Hr; [|done]. intros [= <- _].
      right. right. exists r. split; [by eexists|]. split; [by eexists|done].
    + intros [= <- _]. right. left. split; [by eexists|done].
Qed.

Lemma upgrade_items_printable U config answers simple_mode items :
  ∀ ls w ls' w',
    upgrade_items U config answers simple_mode items ls w = (Ok ls', w') →
    Forall printable (items_to_remove ls ++ items_to_add ls ++ items_ommited ls) →
    Forall printable (items_to_remove ls' ++ items_to_add ls' ++ items_ommited ls').
Proof.
  induction items as [|item items IH]; intros ls w ls' w'; simpl.
  { by intros [= <- _]. }
  unfold bind.
  destruct (upgrade_item U config answers simple_mode item ls w) as [[ls1|e] w1] eqn:Hitem;
    [|done].
  intros Hrest Hls. apply (IH _ _ _ _ Hrest).
  apply upgrade_item_printable in Hitem as [->|[[Hi ->]|(r & Hi & Hr & ->)]]; [done| |];
    revert Hls; simpl; rewrite !Forall_app; intros (? & ? & ?).
  - repeat split; try done. by apply Forall_singleton.
  - repeat split; try done; by apply Forall_singleton.
Qed.

Lemma upgrade_playlist_start U config answers playlist duplicate simple_mode dry w p :
  playlists w !! playlist = Some p →
  (duplicate && negb dry = true → creatable (pl_items p)) →
  upgrade_playlist U config answers playlist duplicate simple_mode dry w
  = bind (upgrade_items U config answers simple_mode (pl_items p) no_lists)
      (λ ls,
         bind (if negb dry then
            bind (if bool_decide (items_to_remove ls ≠ [])
             then bind (removeItems (target duplicate dry playlist w) (items_to_remove ls)) (λ _, print_all (items_to_remove ls))
             else ret ()) (λ _,
            bind (if bool_decide (items_to_add ls ≠ [])
             then bind (addItems (target duplicate dry playlist w) (items_to_add ls)) (λ _, print_all (items_to_add ls))
             else ret ()) (λ _,
            (if bool_decide (items_ommited ls ≠ [])
             then print_all (items_ommited ls)
             else ret ())))
          else ret ()) (λ _, ret (target duplicate dry playlist w)))
      (started duplicate dry p w).
Proof.
  intros Hp Hc. unfold upgrade_playlist, started, target.
  unfold bind at 1. unfold playlist_items at 1. rewrite Hp.
  destruct (duplicate && negb dry).
  - unfold bind at 1. unfold bind at 1. rewrite Hp. cbn [from_option].
    unfold bind at 1. rewrite playlist_create_creatable by (by apply Hc).
    unfold bind at 1. unfold playlist_items. cbn [playlists].
    rewrite lookup_app_r, Nat.sub_diag by lia. cbn [lookup list_lookup].
    unfold ret at 1. reflexivity.
  - unfold bind at 1. unfold ret at 1. reflexivity.
Qed.

Lemma upgrade_playlist_empty_copy U config answers playlist simple_mode w p :
  playlists w !! playlist = Some p →
  pl_items p = [] →
  upgrade_playlist U config answers playlist true simple_mode false w
  = (Raise BadRequest, w).
Proof.
  intros Hp Hempty. unfold upgrade_playlist.
  unfold bind at 1. unfold playlist_items at 1. rewrite Hp. cbn [andb negb].
  unfold bind at 1. unfold bind at 1. rewrite Hp. cbn [from_option].
  unfold bind at 1. by rewrite playlist_create_empty.
Qed.

Lemma with_items_calls id items w cs :
  with_items id items {| playlists := playlists w; calls := cs |}
  = {| playlists := playlists (with_items id items w); calls := cs |}.
Proof. unfold with_items, set_items. simpl. by destruct (playlists w !! id). Qed.

Lemma removeItems_run id rem w p :
  playlists w !! id = Some p →
  sublist rem (pl_items p) →
  NoDup (rating_key <$> pl_items p) →
  removeItems id rem w
  = (Ok (), {| playlists := playlists (with_items id (without rem (pl_items p)) w);
               calls := calls w ++ [ItemsRemoved id rem] |}).
Proof.
  intros Hp Hsub Hnd. unfold removeItems, bind, call.
  erewrite (remove_each_sublist id rem (pl_items p)); [|exact Hp|done..].
  by rewrite with_items_calls.
Qed.

Lemma addItems_run id add w p :
  playlists w !! id = Some p →
  addItems id add w
  = (Ok (), {| playlists := playlists (with_items id (pl_items p ++ add) w);
               calls := calls w ++ [ItemsAdded id add] |}).
Proof.
  intros Hp. unfold addItems, bind, call, playlist_items. cbn [playlists]. rewrite Hp.
  erewrite set_items_with_items by exact Hp. by rewrite with_items_calls.
Qed.

Lemma remove_stage id rem w p :
  playlists w !! id = Some p →
  sublist rem (pl_items p) →
  NoDup (rating_key <$> pl_items p) →
  Forall printable rem →
  (if bool_decide (rem ≠ [])
   then bind (removeItems id rem) (λ _, print_all rem) else ret ()) w
  = (Ok (), {| playlists := playlists (with_items id (without rem (pl_items p)) w);
               calls := calls w ++ if bool_decide (rem ≠ [])
                                   then [ItemsRemoved id rem] else [] |}).
Proof.
  intros Hp Hsub Hnd Hprint. case_bool_decide as Hrem.
  - unfold bind. rewrite (removeItems_run id rem w p) by done.
    by rewrite print_all_printable.
  - subst rem. rewrite without_nil, (with_items_same id w p) by done.
    rewrite app_nil_r. by destruct w.
Qed.

Lemma add_stage id add w p :
  playlists w !! id = Some p →
  Forall printable add →
  (if bool_decide (add ≠ [])
   then bind (addItems id add) (λ _, print_all add) else ret ()) w
  = (Ok (), {| playlists := playlists (with_items id (pl_items p ++ add) w);
               calls := calls w ++ if bool_decide (add ≠ [])
                                   then [ItemsAdded id add] else [] |}).
Proof.
  intros Hp Hprint. case_bool_decide as Hadd.
  - unfold bind. rewrite (addItems_run id add w p) by done.
    by rewrite print_all_printable.
  - subst add. rewrite !app_nil_r, (with_items_same id w p) by done.
    by destruct w.
Qed.

Lemma omit_stage om w :
  Forall printable om →
  (if bool_decide (om ≠ []) then print_all om else ret ()) w = (Ok (), w).
Proof. intros Hprint. case_bool_decide; [by apply print_all_printable|done]. Qed.

Lemma started_target duplicate dry playlist w p :
  playlists w !! playlist = Some p →
  playlists (started duplicate dry p w) !! target duplicate dry playlist w
  = Some (if duplicate && negb dry then copy_of p else p).
Proof.
  intros Hp. unfold started, target. destruct (duplicate && negb dry); [|done].
  simpl. by rewrite lookup_app_r, Nat.sub_diag by lia.
Qed.

(** X13: a run of [upgrade_playlist] that is no dry run, on a playlist in
    which no two entries are the same track. With [duplicate] an empty
    playlist is a [BadRequest] of [Playlist.create], and the server is as
    before. Where [Playlist.create], if it is called, accepts the items and
    the analysis returns, the playlist the run works on, the chosen one or
    with [duplicate] a new playlist named "Copy of " and the title, ends up
    with the entries that were not replaced, in their order, followed by
    the replacements in the order they were found; it has as many entries
    as before. With [duplicate] the playlists that existed are left as they
    were; without it the chosen playlist keeps its summary and type.
    [removeItems] and [addItems] are called at most once each, and only
    with a list that is not empty. *)
Theorem upgrade_playlist_replaces U config answers playlist duplicate simple_mode w p :
  playlists w !! playlist = Some p →
  NoDup (rating_key <$> pl_items p) →
  (duplicate = true → pl_items p = [] →
   upgrade_playlist U config answers playlist duplicate simple_mode false w
   = (Raise BadRequest, w)) ∧
  ∀ ls w1,
    (duplicate = true → creatable (pl_items p)) →
    upgrade_items U config answers simple_mode (pl_items p) no_lists
      (started duplicate false p w) = (Ok ls, w1) →
    let id := target duplicate false playlist w in
    let final := without (items_to_remove ls) (pl_items p) ++ items_to_add ls in
    ∃ upgraded,
      pl_title upgraded = (if duplicate then lit "Copy of " else []) ++ pl_title p ∧
      pl_items upgraded = final ∧
      (duplicate = false →
       pl_summary upgraded = pl_summary p ∧ pl_type upgraded = pl_type p) ∧
      upgrade_playlist U config answers playlist duplicate simple_mode false w
      = (Ok id,
         {| playlists := if duplicate then playlists w ++ [upgraded]
                         else <[playlist := upgraded]> (playlists w);
            calls := calls w1
                     ++ (if bool_decide (items_to_remove ls ≠ [])
                         then [ItemsRemoved id (items_to_remove ls)] else [])
                     ++ (if bool_decide (items_to_add ls ≠ [])
                         then [ItemsAdded id (items_to_add ls)] else []) |}) ∧
      length final = length (pl_items p).
Proof.
  intros Hp Hnd. split.
  { intros -> Hempty. by eapply upgrade_playlist_empty_copy. }
  intros ls w1 Hc Hrun id final.
  assert (duplicate && negb false = true → creatable (pl_items p)) as Hc'.
  { rewrite andb_true_r. exact Hc. }
  pose proof (started_target duplicate false playlist w p Hp) as Hq.
  fold id in Hq. rewrite andb_true_r in Hq.
  set (q := if duplicate then copy_of p else p) in Hq.
  assert (pl_items q = pl_items p) as Hitems by (unfold q; by destruct duplicate).
  destruct (reads_only_upgrade_items U config answers simple_mode (pl_items p) no_lists
              (started duplicate false p w)) as [Hsame _].
  rewrite Hrun in Hsame. cbn [snd] in Hsame.
  destruct (upgrade_items_collects _ _ _ _ _ _ _ _ _ Hrun)
    as (rem & add & om & Hrem & Hadd & Hom & Hpairs & Hperm & Hsub & _).
  pose proof (upgrade_items_printable _ _ _ _ _ _ _ _ _ Hrun) as Hprint.
  cbn [no_lists items_to_remove items_to_add items_ommited app] in Hrem, Hadd, Hom, Hprint.
  specialize (Hprint (Forall_nil_2 _)). rewrite !Forall_app in Hprint.
  destruct Hprint as (Hprem & Hpadd & Hpom).
  assert (sublist (items_to_remove ls) (pl_items p)) as Hsub'.
  { rewrite Hrem. etrans; [exact Hsub|]. apply sublist_filter. }
  exists {| pl_title := pl_title q; pl_summary := pl_summary q; pl_type := pl_type q;
            pl_items := final |}.
  split; [unfold q; by destruct duplicate|]. split; [done|].
  split; [intros ->; by unfold q|]. split.
  - rewrite (upgrade_playlist_start U config answers playlist duplicate simple_mode false w p)
      by done.
    unfold bind at 1. rewrite Hrun. cbn [negb]. fold id.
    rewrite <- Hsame in Hq.
    unfold bind at 1. unfold bind at 1.
    rewrite (remove_stage id (items_to_remove ls) w1 q) by (by rewrite ?Hitems).
    unfold bind at 1.
    erewrite (add_stage id (items_to_add ls)); [| |done].
    2:{ cbn [playlists]. by eapply with_items_lookup. }
    rewrite omit_stage by done. unfold ret. f_equal.
    cbn [playlists calls pl_items]. rewrite <- (assoc_L (++)). f_equal.
    rewrite Hitems. fold final.
    rewrite with_items_calls. cbn [playlists]. rewrite with_items_twice.
    unfold with_items, set_items. rewrite Hq. cbn [snd playlists]. rewrite Hsame.
    unfold started, id, target, q. destruct duplicate; simpl.
    + rewrite insert_app_r_alt, Nat.sub_diag by lia. done.
    + done.
  - unfold final. rewrite length_app, Hadd, <- (Forall2_length _ _ _ Hpairs), <- Hrem.
    rewrite <- (Permutation_length (without_Permutation _ _ Hsub' Hnd)), length_app. done.
Qed.

Lemma upgrade_playlist_replaces_witness :
  let p := {| pl_title := lit "Mix"; pl_summary := VNone; pl_type := lit "audio";
              pl_items := [listed poor_track; listed good_track] |} in
  ∃ upgraded,
    pl_title upgraded = lit "Copy of Mix" ∧
    pl_items upgraded = [listed good_track; better_track] ∧
    upgrade_playlist ascii_only ∅ (finds [better_track] []) 0 true true false listed_pair
    = (Ok 1%nat,
       {| playlists := [p; upgraded];
          calls := [Created (copy_of p); Searched (lit "Song") (lit "Artist");
                    ItemsRemoved 1 [listed poor_track]; ItemsAdded 1 [better_track]] |}).
Proof.
  intros p.
  assert (NoDup (rating_key <$> pl_items p)) as Hnd by compute_done.
  assert (creatable (pl_items p)) as Hc.
  { split; [by eexists|]. repeat constructor; by eexists. }
  assert (upgrade_items ascii_only ∅ (finds [better_track] []) true (pl_items p) no_lists
            (started true false p listed_pair)
          = (Ok {| items_to_remove := [listed poor_track]; items_to_add := [better_track];
                   items_ommited := [] |},
             {| playlists := [p; copy_of p];
                calls := [Created (copy_of p); Searched (lit "Song") (lit "Artist")] |}))
    as Hrun by (vm_compute; reflexivity).
  destruct (upgrade_playlist_replaces ascii_only ∅ (finds [better_track] []) 0 true true
              listed_pair p eq_refl Hnd) as [_ Hok].
  destruct (Hok _ _ (λ _, Hc) Hrun) as (upgraded & Htitle & Hitems & _ & Hresult & _).
  exists upgraded. split; [exact Htitle|]. split; [exact Hitems|]. exact Hresult.
Defined.

(** X14: where the analysis of [upgrade_playlist] raises, be it a track
    without media or the entry to abort chosen at a prompt, the exception
    leaves [upgrade_playlist] and neither [removeItems] nor [addItems] has
    been called. Every playlist that existed is as it was; with [duplicate]
    and without [dry], where [Playlist.create] accepts the items, the
    "Copy of" playlist has been created before and stays on the server,
    with the items of the original. *)
Theorem upgrade_playlist_analysis_raises
    U config answers playlist duplicate simple_mode dry w p e w1 :
  playlists w !! playlist = Some p →
  (duplicate && negb dry = true → creatable (pl_items p)) →
  upgrade_items U config answers simple_mode (pl_items p) no_lists
    (started duplicate dry p w) = (Raise e, w1) →
  upgrade_playlist U config answers playlist duplicate simple_mode dry w = (Raise e, w1) ∧
  playlists w1 = (if duplicate && negb dry then playlists w ++ [copy_of p]
                  else playlists w) ∧
  ∃ made,
    calls w1 = calls w ++ (if duplicate && negb dry then [Created (copy_of p)] else [])
               ++ made ∧
    Forall (λ e, modifies e = false) made.
Proof.
  intros Hp Hc Hrun.
  destruct (reads_only_upgrade_items U config answers simple_mode (pl_items p) no_lists
              (started duplicate dry p w)) as (Hsame & made & Hcalls & Hmade).
  rewrite Hrun in Hsame, Hcalls. cbn [snd] in Hsame, Hcalls. split; [|split].
  - rewrite (upgrade_playlist_start U config answers playlist duplicate simple_mode dry w p)
      by done.
    unfold bind at 1. by rewrite Hrun.
  - rewrite Hsame. unfold started. by destruct (duplicate && negb dry).
  - exists made. split; [|done]. rewrite Hcalls. unfold started.
    destruct (duplicate && negb dry); simpl; [by rewrite <- (assoc_L (++))|done].
Qed.

Lemma upgrade_playlist_analysis_raises_witness :
  let p := {| pl_title := lit "Mix"; pl_summary := VNone; pl_type := lit "audio";
              pl_items := [listed poor_track; listed good_track] |} in
  let w1 := {| playlists := [p; copy_of p];
               calls := [Created (copy_of p); Searched (lit "Song") (lit "Artist");
                         Prompted
                           (lit "Select a replacement track for " ++ [34]
                            ++ lit "Artist - Song (LP) [03:00][mp3][192]" ++ [34])
                           [lit "None"; lit "Artist - Song (LP) [03:00][flac][900]";
                            lit "Artist - Song (LP) [03:00][mp3][320]"; abort_choice]] |} in
  upgrade_playlist ascii_only ∅ (finds [better_track; good_track] abort_choice)
    0 true false false listed_pair = (Raise SystemExit, w1) ∧
  playlists w1 = playlists listed_pair ++ [copy_of p] ∧
  ∃ made,
    calls w1 = calls listed_pair ++ [Created (copy_of p)] ++ made ∧
    Forall (λ e, modifies e = false) made.
Proof.
  intros p w1.
  assert (creatable (pl_items p)) as Hc.
  { split; [by eexists|]. repeat constructor; by eexists. }
  assert (upgrade_items ascii_only ∅ (finds [better_track; good_track] abort_choice) false
            (pl_items p) no_lists (started true false p listed_pair)
          = (Raise SystemExit, w1)) as Hrun by (vm_compute; reflexivity).
  exact (upgrade_playlist_analysis_raises ascii_only ∅
           (finds [better_track; good_track] abort_choice) 0 true false false
           listed_pair p SystemExit w1 eq_refl (λ _, Hc) Hrun).
Defined.

(** ** upgrade_playlist: the simple mode *)

Lemma asks_nothing_lift {A} (r : result A) : asks_nothing (lift r).
Proof. intros w. exists []. by rewrite app_nil_r. Qed.

Lemma asks_nothing_ret {A} (a : A) : asks_nothing (ret a).
Proof. apply asks_nothing_lift. Qed.

Lemma asks_nothing_raise {A} (e : exn) : asks_nothing (raise (A:=A) e).
Proof. apply asks_nothing_lift. Qed.

Lemma asks_nothing_bind {A B} (m : M A) (k : A → M B) :
  asks_nothing m → (∀ a, asks_nothing (k a)) → asks_nothing (bind m k).
Proof.
  intros Hm Hk w. unfold bind. specialize (Hm w).
  destruct (m w) as [[a|e] w1]; simpl in Hm; [|done].
  destruct Hm as (made & Hc & Hmade).
  destruct (Hk a w1) as (made' & Hc' & Hmade').
  exists (made ++ made'). split.
  - by rewrite Hc', Hc, app_assoc.
  - by apply Forall_app.
Qed.

Lemma asks_nothing_call (e : event) : is_prompt e = false → asks_nothing (call e).
Proof. intros He w. exists [e]. split; [done|]. by constructor. Qed.

Lemma asks_nothing_playlist_items id : asks_nothing (playlist_items id).
Proof.
  intros w. unfold playlist_items. exists [].
  destruct (playlists w !! id); by rewrite app_nil_r.
Qed.

Lemma asks_nothing_set_items id items : asks_nothing (set_items id items).
Proof.
  intros w. unfold set_items. exists [].
  destruct (playlists w !! id); by rewrite app_nil_r.
Qed.

Lemma asks_nothing_playlist_create p : asks_nothing (playlist_create p).
Proof.
  unfold playlist_create. destruct (pl_items p) as [|first rest].
  { apply asks_nothing_raise. }
  apply asks_nothing_bind; [apply asks_nothing_lift|intros listType].
  apply asks_nothing_bind; [apply asks_nothing_lift|intros _].
  intros w. eexists [_]. split; [done|]. by constructor.
Qed.

Create HintDb asks_nothing discriminated.
#[local] Hint Resolve asks_nothing_lift asks_nothing_ret asks_nothing_raise
  asks_nothing_playlist_items asks_nothing_set_items asks_nothing_playlist_create
  : asks_nothing.
#[local] Hint Extern 2 (asks_nothing (bind _ _)) =>
  apply asks_nothing_bind; [|intros ?] : asks_nothing.
#[local] Hint Extern 2 (asks_nothing (call _)) =>
  apply asks_nothing_call; reflexivity : asks_nothing.
#[local] Hint Extern 3 (asks_nothing (if ?b then _ else _)) => destruct b : asks_nothing.
#[local] Hint Extern 3 (asks_nothing (match ?x with _ => _ end)) => destruct x : asks_nothing.

Lemma asks_nothing_print {A} (e : result A) : asks_nothing (print e).
Proof. unfold print. auto with asks_nothing. Qed.
#[local] Hint Resolve asks_nothing_print : asks_nothing.

Lemma asks_nothing_print_all items : asks_nothing (print_all items).
Proof. induction items; simpl; auto with asks_nothing. Qed.
#[local] Hint Resolve asks_nothing_print_all : asks_nothing.

Lemma asks_nothing_remove_each id items : asks_nothing (remove_each id items).
Proof. induction items; simpl; auto 6 with asks_nothing. Qed.
#[local] Hint Resolve asks_nothing_remove_each : asks_nothing.

Lemma asks_nothing_removeItems id items : asks_nothing (removeItems id items).
Proof. unfold removeItems. auto with asks_nothing. Qed.

Lemma asks_nothing_addItems id items : asks_nothing (addItems id items).
Proof. unfold addItems. auto 6 with asks_nothing. Qed.
#[local] Hint Resolve asks_nothing_removeItems asks_nothing_addItems : asks_nothing.

Lemma asks_nothing_find_replacements U answers item :
  asks_nothing (find_replacements U answers item).
Proof. unfold find_replacements, library_search. auto 10 with asks_nothing. Qed.
#[local] Hint Resolve asks_nothing_find_replacements : asks_nothing.

Lemma asks_nothing_upgrade_item U config answers item ls :
  asks_nothing (upgrade_item U config answers true item ls).
Proof.
  unfold upgrade_item.
  apply asks_nothing_bind; [auto with asks_nothing|intros good].
  destruct good; [auto with asks_nothing|].
  apply asks_nothing_bind; [auto with asks_nothing|intros _].
  apply asks_nothing_bind; [auto with asks_nothing|intros [|best reps]];
    auto with asks_nothing.
Qed.
#[local] Hint Resolve asks_nothing_upgrade_item : asks_nothing.

Lemma asks_nothing_upgrade_items U config answers items ls :
  asks_nothing (upgrade_items U config answers true items ls).
Proof. revert ls. induction items; intros ls; simpl; auto with asks_nothing. Qed.
#[local] Hint Resolve asks_nothing_upgrade_items : asks_nothing.

Lemma upgrade_items_simple_choose U config search choose choose' items :
  ∀ ls w,
    upgrade_items U config {| search := search; choose := choose |} true items ls w
    = upgrade_items U config {| search := search; choose := choose' |} true items ls w.
Proof.
  induction items as [|item items IH]; intros ls w; [done|].
  simpl. unfold bind.
  change (upgrade_item U config {| search := search; choose := choose' |} true item ls w)
    with (upgrade_item U config {| search := search; choose := choose |} true item ls w).
  destruct (upgrade_item _ _ _ true item ls w) as [[ls1|e] w1]; [apply IH|done].
Qed.

Lemma bind_ext_l {A B} (m m' : M A) (k : A → M B) w :
  m w = m' w → bind m k w = bind m' k w.
Proof. unfold bind. by intros ->. Qed.

Lemma bind_ext_r {A B} (m : M A) (k k' : A → M B) w :
  (∀ a w', k a w' = k' a w') → bind m k w = bind m k' w.
Proof. intros Hk. unfold bind. by destruct (m w) as [[a|e] w']. Qed.

(** X15: the simple mode runs unattended. With [simple_mode] set,
    [upgrade_playlist] shows no prompt, whatever the playlist and the other
    flags are and whether it returns or raises, and what it returns and
    what it does to the server depends on the answers of the search alone,
    not on what would be answered at a prompt. *)
Theorem simple_mode_asks_nothing U config answers playlist duplicate dry w :
  let run := upgrade_playlist U config answers playlist duplicate true dry w in
  (∃ made, calls run.2 = calls w ++ made ∧
     ∀ e, e ∈ made → ∀ message choices, e ≠ Prompted message choices) ∧
  ∀ answers', search answers' = search answers →
    upgrade_playlist U config answers' playlist duplicate true dry w = run.
Proof.
  split.
  - assert (asks_nothing (upgrade_playlist U config answers playlist duplicate true dry))
      as H.
    { unfold upgrade_playlist.
      apply asks_nothing_bind; [auto with asks_nothing|intros items].
      apply asks_nothing_bind; [|intros [id its]].
      - destruct (duplicate && negb dry); [|auto with asks_nothing].
        apply asks_nothing_bind; [|intros old; auto 6 with asks_nothing].
        intros w0. exists []. by rewrite app_nil_r.
      - apply asks_nothing_bind; [auto with asks_nothing|intros ls].
        apply asks_nothing_bind; [|auto with asks_nothing].
        destruct (negb dry); [|auto with asks_nothing].
        repeat (apply asks_nothing_bind; [|intros ?]);
          case_bool_decide; auto with asks_nothing. }
    destruct (H w) as (made & Hc & Hmade). exists made. split; [done|].
    intros e He message choices ->. rewrite Forall_forall in Hmade.
    by specialize (Hmade _ He).
  - intros [search' choose'] Hsearch. destruct answers as [search0 choose0].
    simpl in Hsearch. subst search'. unfold upgrade_playlist.
    apply bind_ext_r. intros items w0. apply bind_ext_r. intros [id its] w1.
    apply bind_ext_l, upgrade_items_simple_choose.
Qed.

(** ** Sorting on the day of release *)

Lemma zero_pad_four_digits z :
  (0 ≤ z < 10000)%Z →
  zero_pad 4 z = [48 + Z.to_N (z / 1000); 48 + Z.to_N (z / 100 mod 10);
                  48 + Z.to_N (z / 10 mod 10); 48 + Z.to_N (z mod 10)].
Proof.
  intros Hz.
  assert (Forall (λ z, zero_pad 4 z = [48 + Z.to_N (z / 1000); 48 + Z.to_N (z / 100 mod 10);
                                       48 + Z.to_N (z / 10 mod 10); 48 + Z.to_N (z mod 10)])
            (seqZ 0 10000)) as Hall by compute_done.
  rewrite Forall_forall in Hall. apply Hall, elem_of_seqZ. lia.
Qed.

Lemma str_le_digit (a b : Z) (s t : pystr) :
  (0 ≤ a < 10)%Z → (0 ≤ b < 10)%Z →
  str_le ((48 + Z.to_N a) :: s) ((48 + Z.to_N b) :: t)
  = if (a <? b)%Z then true else if (b <? a)%Z then false else str_le s t.
Proof.
  intros Ha Hb. simpl.
  destruct (N.ltb_spec (48 + Z.to_N a) (48 + Z.to_N b)),
    (N.ltb_spec (48 + Z.to_N b) (48 + Z.to_N a)),
    (Z.ltb_spec a b), (Z.ltb_spec b a); try done; lia.
Qed.

Lemma zero_pad_two_order x y s t :
  (0 ≤ x < 100)%Z → (0 ≤ y < 100)%Z →
  str_le (zero_pad 2 x ++ s) (zero_pad 2 y ++ t)
  = if (x <? y)%Z then true else if (y <? x)%Z then false else str_le s t.
Proof.
  intros Hx Hy. rewrite !zero_pad_two_digits by done. cbn [app].
  rewrite !str_le_digit by (try apply Z.mod_pos_bound; try (split; [apply Z.div_pos|apply Z.div_lt_upper_bound]); lia).
  pose proof (Z.div_mod x 10 ltac:(lia)). pose proof (Z.div_mod y 10 ltac:(lia)).
  pose proof (Z.mod_pos_bound x 10 ltac:(lia)). pose proof (Z.mod_pos_bound y 10 ltac:(lia)).
  destruct (Z.ltb_spec (x / 10) (y / 10)), (Z.ltb_spec (y / 10) (x / 10)),
    (Z.ltb_spec (x mod 10) (y mod 10)), (Z.ltb_spec (y mod 10) (x mod 10)),
    (Z.ltb_spec x y), (Z.ltb_spec y x); try done; lia.
Qed.

Lemma zero_pad_four_order x y s t :
  (0 ≤ x < 10000)%Z → (0 ≤ y < 10000)%Z →
  str_le (zero_pad 4 x ++ s) (zero_pad 4 y ++ t)
  = if (x <? y)%Z then true else if (y <? x)%Z then false else str_le s t.
Proof.
  intros Hx Hy. rewrite !zero_pad_four_digits by done. cbn [app].
  assert (∀ z, (0 ≤ z < 10000 → 0 ≤ z / 1000 < 10)%Z) as H3.
  { intros z Hz. split; [apply Z.div_pos|apply Z.div_lt_upper_bound]; lia. }
  rewrite !str_le_digit by (try apply Z.mod_pos_bound; try apply H3; lia).
  pose proof (H3 x Hx). pose proof (H3 y Hy).
  pose proof (Z.mod_pos_bound (x / 100) 10 ltac:(lia)).
  pose proof (Z.mod_pos_bound (y / 100) 10 ltac:(lia)).
  pose proof (Z.mod_pos_bound (x / 10) 10 ltac:(lia)).
  pose proof (Z.mod_pos_bound (y / 10) 10 ltac:(lia)).
  pose proof (Z.mod_pos_bound x 10 ltac:(lia)).
  pose proof (Z.mod_pos_bound y 10 ltac:(lia)).
  assert (∀ z, (z = 1000 * (z / 1000) + 100 * (z / 100 mod 10) + 10 * (z / 10 mod 10)
                    + z mod 10)%Z) as Hsplit.
  { intros z. pose proof (Z.div_mod z 10 ltac:(lia)).
    pose proof (Z.div_mod (z / 10) 10 ltac:(lia)).
    pose proof (Z.div_mod (z / 100) 10 ltac:(lia)).
    assert (z / 10 / 10 = z / 100)%Z by (rewrite Z.div_div by lia; done).
    assert (z / 100 / 10 = z / 1000)%Z by (rewrite Z.div_div by lia; done).
    lia. }
  pose proof (Hsplit x) as Hxs. pose proof (Hsplit y) as Hys.
  clear H3 Hsplit.
  remember (x / 1000)%Z as x3 eqn:E; clear E. remember (y / 1000)%Z as y3 eqn:E; clear E.
  remember (x / 100 mod 10)%Z as x2 eqn:E; clear E.
  remember (y / 100 mod 10)%Z as y2 eqn:E; clear E.
  remember (x / 10 mod 10)%Z as x1 eqn:E; clear E.
  remember (y / 10 mod 10)%Z as y1 eqn:E; clear E.
  remember (x mod 10)%Z as x0 eqn:E; clear E. remember (y mod 10)%Z as y0 eqn:E; clear E.
  destruct (Z.ltb_spec x3 y3), (Z.ltb_spec y3 x3); [lia| | |];
    [destruct (Z.ltb_spec x y); [done|lia]
    |destruct (Z.ltb_spec x y), (Z.ltb_spec y x); try done; lia|].
  destruct (Z.ltb_spec x2 y2), (Z.ltb_spec y2 x2); [lia| | |];
    [destruct (Z.ltb_spec x y); [done|lia]
    |destruct (Z.ltb_spec x y), (Z.ltb_spec y x); try done; lia|].
  destruct (Z.ltb_spec x1 y1), (Z.ltb_spec y1 x1); [lia| | |];
    [destruct (Z.ltb_spec x y); [done|lia]
    |destruct (Z.ltb_spec x y), (Z.ltb_spec y x); try done; lia|].
  destruct (Z.ltb_spec x0 y0), (Z.ltb_spec y0 x0), (Z.ltb_spec x y), (Z.ltb_spec y x);
    try done; lia.
Qed.

Lemma str_le_same c (s t : pystr) : str_le (c :: s) (c :: t) = str_le s t.
Proof. simpl. by rewrite N.ltb_irrefl. Qed.

Lemma isoformat_order a b :
  whole_second a → whole_second b →
  str_le (isoformat a) (isoformat b) = lex_le (date_fields a) (date_fields b).
Proof.
  intros (Hy & Hm & Hd & Hh & Hmi & Hs & Hu) (Hy' & Hm' & Hd' & Hh' & Hmi' & Hs' & Hu').
  unfold isoformat, isoformat_sep, date_fields. rewrite Hu, Hu'.
  cbn [lex_le]. change (lit "-") with [45]. change (lit ":") with [58].
  rewrite !bool_decide_eq_true_2 by done.
  rewrite zero_pad_four_order by lia.
  destruct (year a <? year b)%Z; [done|]. destruct (year b <? year a)%Z; [done|].
  cbn [app]. rewrite str_le_same, zero_pad_two_order by lia.
  destruct (month a <? month b)%Z; [done|]. destruct (month b <? month a)%Z; [done|].
  cbn [app]. rewrite str_le_same, zero_pad_two_order by lia.
  destruct (day a <? day b)%Z; [done|]. destruct (day b <? day a)%Z; [done|].
  cbn [app]. rewrite str_le_same, zero_pad_two_order by lia.
  destruct (hour a <? hour b)%Z; [done|]. destruct (hour b <? hour a)%Z; [done|].
  cbn [app]. rewrite str_le_same, zero_pad_two_order by lia.
  destruct (minute a <? minute b)%Z; [done|]. destruct (minute b <? minute a)%Z; [done|].
  cbn [app]. rewrite str_le_same, zero_pad_two_order by lia.
  destruct (second a <? second b)%Z; [done|]. destruct (second b <? second a)%Z; [done|].
  done.
Qed.

(** X3: a video playlist sorted on "Originally available at" comes out in
    the order of the calendar. The key is the ISO text of the date, and for
    dates on a whole second the order of these texts, code point by code
    point, is the order of the dates; so where every item has such a date
    the Sorter returns the items from the earliest to the latest, or from
    the latest to the earliest when the direction is reversed. *)
Theorem sorting_on_date_is_chronological
    U rng playlist_type bk sk bsk (rev : bool) (heap : list (list Item)) l items
    (date : Item → datetime) :
  heap !! l = Some items →
  playlist_type ≠ lit "audio" →
  (∀ x, x ∈ items →
     attrs x !! "originallyAvailableAt"%string = Some (VDatetime (date x)) ∧
     whole_second (date x)) →
  ∃ out,
    sort_playlist_items U rng playlist_type "originallyAvailableAt" bk sk bsk rev heap l
    = Ok (heap ++ [out], length heap) ∧
    out ≡ₚ items ∧
    ∀ i j x y, (i < j)%nat → out !! i = Some x → out !! j = Some y →
      (if rev then py_le (VDatetime (date y)) (VDatetime (date x))
       else py_le (VDatetime (date x)) (VDatetime (date y))) = true.
Proof.
  intros Hl Hty Hdates.
  set (out := sort_with (λ x y, str_le (isoformat (date x)) (isoformat (date y))) rev items).
  assert (out ≡ₚ items) as Hperm by apply sort_with_Permutation.
  exists out. split; [|split; [done|]].
  - apply one_pass_run; [done..|]. intros x Hx. destruct (Hdates x Hx) as [Hattr _].
    unfold sort_value, getattr. rewrite Hattr. cbn [mbind result_bind].
    by rewrite bool_decide_eq_true_2.
  - intros i j x y Hij Hi Hj.
    pose proof (sort_with_str_le_sorted (λ x, isoformat (date x)) rev items i j x y
                  Hij Hi Hj) as Hsorted.
    assert (whole_second (date x)) as Hx.
    { apply Hdates. rewrite <- Hperm. by eapply list_elem_of_lookup_2. }
    assert (whole_second (date y)) as Hy.
    { apply Hdates. rewrite <- Hperm. by eapply list_elem_of_lookup_2. }
    cbn [py_le]. destruct rev; by rewrite <- isoformat_order.
Qed.

Lemma sorting_on_date_is_chronological_witness :
  ∃ out,
    sort_playlist_items ascii_only (λ _, 0%nat) (lit "video")
      "originallyAvailableAt" "originallyAvailableAt" "title" "originallyAvailableAt"
      false [dated_films] 0
    = Ok ([dated_films] ++ [out], length [dated_films]) ∧
    out ≡ₚ dated_films ∧
    ∀ i j x y, (i < j)%nat → out !! i = Some x → out !! j = Some y →
      py_le (VDatetime (release_date x)) (VDatetime (release_date y)) = true.
Proof.
  apply (sorting_on_date_is_chronological ascii_only (λ _, 0%nat) (lit "video")
           "originallyAvailableAt" "title" "originallyAvailableAt" false [dated_films] 0
           dated_films release_date).
  - reflexivity.
  - discriminate.
  - intros x Hx. unfold dated_films in Hx.
    repeat (apply elem_of_cons in Hx as [->|Hx];
            [split; [vm_compute; reflexivity|unfold whole_second; compute_done]|]).
    by apply elem_of_nil in Hx.
Defined.

(** ** upgrade_playlist: the choice of the simple mode *)

Lemma higher_bitrate_int item r z :
  bitrate_key item = Ok (VInt z) →
  higher_bitrate item r = Ok true →
  bitrate_key r = Ok (VInt (bitrate_of r)) ∧ (z < bitrate_of r)%Z.
Proof.
  unfold higher_bitrate, bitrate_of, bitrate_key, media0.
  destruct (media item) as [|mi ?]; [done|]. destruct (media r) as [|mr ?]; [done|].
  cbn [mbind result_bind]. intros [= Hz]. rewrite Hz.
  destruct (bitrate mr) as [|s|zr|d].
  - done.
  - by destruct (truthy (VStr s)).
  - destruct (truthy (VInt zr)); [|done]. cbn. intros [= Hlt].
    split; [done|]. apply negb_true_iff, Z.leb_gt in Hlt. done.
  - by destruct (truthy (VDatetime d)).
Qed.

Lemma find_replacements_ranked U answers item w reps w' z :
  bitrate_key item = Ok (VInt z) →
  find_replacements U answers item w = (Ok reps, w') →
  (∀ r, r ∈ reps → bitrate_key r = Ok (VInt (bitrate_of r)) ∧ (z < bitrate_of r)%Z) ∧
  ∀ i j x y, (i < j)%nat → reps !! i = Some x → reps !! j = Some y →
    (bitrate_of y ≤ bitrate_of x)%Z.
Proof.
  intros Hz Hfind.
  pose proof (find_replacements_sound _ _ _ _ _ _ Hfind) as Hsound.
  assert (∀ r, r ∈ reps → bitrate_key r = Ok (VInt (bitrate_of r)) ∧ (z < bitrate_of r)%Z)
    as Hint.
  { intros r Hr. destruct (Hsound r Hr) as [Hhigher _]. by eapply higher_bitrate_int. }
  split; [done|].
  revert Hfind. unfold find_replacements, bind, lift.
  destruct (library_search U answers item w) as [[found|e] w1]; [|done].
  destruct (filter_r (higher_bitrate item) found) as [higher|e]; [|done].
  destruct (filter_r (artist_within U item) higher) as [within|e]; [|done].
  intros [= Hrank <-]. unfold rank_replacements in Hrank.
  destruct (py_sorted artist_key false within) as [s1|] eqn:H1; [|done].
  cbn [mbind result_bind] in Hrank.
  pose proof (py_sorted_Permutation _ _ _ _ Hrank) as Hperm.
  rewrite (py_sorted_int _ bitrate_of) in Hrank.
  - injection Hrank as <-. intros i j x y Hij Hi Hj.
    apply Z.leb_le.
    apply (sort_with_sorted (λ a b, (bitrate_of a <=? bitrate_of b)%Z) true s1 i j x y);
      try done.
    + intros a b. rewrite !Z.leb_le. lia.
    + intros a b c. rewrite !Z.leb_le. lia.
  - intros x Hx. apply Hint. by rewrite Hperm.
Qed.

Lemma filter_r_iff {A} (p : A → result bool) (xs out : list A) :
  filter_r p xs = Ok out → ∀ x, x ∈ out ↔ x ∈ xs ∧ p x = Ok true.
Proof.
  intros Hout x. split; [by apply filter_r_Ok|]. revert out Hout.
  induction xs as [|y xs IH]; intros out; simpl.
  { intros _ [Hx _]. by apply elem_of_nil in Hx. }
  destruct (p y) as [b|] eqn:Hy; [|done]. cbn [mbind result_bind].
  destruct (filter_r p xs) as [ys|]; [|done]. cbn [mbind result_bind].
  intros [= <-] [Hx Hpx]. apply elem_of_cons in Hx as [->|Hx].
  - rewrite Hy in Hpx. injection Hpx as ->. by left.
  - specialize (IH ys eq_refl (conj Hx Hpx)). destruct b; [by right|done].
Qed.

Lemma find_replacements_complete U answers item w reps w' :
  find_replacements U answers item w = (Ok reps, w') →
  ∃ found,
    library_search U answers item w = (Ok found, w') ∧
    ∀ r, r ∈ reps ↔ r ∈ found ∧ upgrade_of U item r.
Proof.
  unfold find_replacements, bind, lift.
  destruct (library_search U answers item w) as [[found|e] w1]; [|done].
  destruct (filter_r (higher_bitrate item) found) as [higher|e] eqn:Hh; [|done].
  destruct (filter_r (artist_within U item) higher) as [within|e] eqn:Ha; [|done].
  intros [= Hrank <-]. exists found. split; [done|]. intros r.
  unfold rank_replacements in Hrank.
  destruct (py_sorted artist_key false within) as [s1|] eqn:H1; [|done].
  cbn [mbind result_bind] in Hrank.
  apply py_sorted_Permutation in H1, Hrank.
  rewrite Hrank, H1, (filter_r_iff _ _ _ Ha), (filter_r_iff _ _ _ Hh).
  unfold upgrade_of. tauto.
Qed.

(** X16: in simple mode the best version is taken. For a track that fails
    the quality requirements and whose bitrate is an integer, either no
    result of the search passes both tests and the track is listed as
    omitted, or the track is replaced by a result of the search that passes
    both tests and whose bitrate is above its own and at least that of
    every result of the search that passes them. *)
Theorem simple_mode_takes_the_highest_bitrate
    U config answers item ls w ls' w' z :
  bitrate_key item = Ok (VInt z) →
  check_quality_requirements config item = Ok false →
  upgrade_item U config answers true item ls w = (Ok ls', w') →
  ∃ found,
    (library_search U answers item w).1 = Ok found ∧
    ((∀ r, r ∈ found → ¬ upgrade_of U item r) ∧ ls' = ommited item ls ∨
     ∃ best,
       best ∈ found ∧ upgrade_of U item best ∧ ls' = replaced item best ls ∧
       (z < bitrate_of best)%Z ∧
       ∀ r, r ∈ found → upgrade_of U item r → (bitrate_of r ≤ bitrate_of best)%Z).
Proof.
  intros Hz Hbad. unfold upgrade_item, bind, lift, print, ret. rewrite Hbad.
  unfold bind, lift, ret. destruct (audio_to_str item) as [label|]; [|done].
  destruct (find_replacements U answers item w) as [[reps|e] w1] eqn:Hfind; [|done].
  destruct (find_replacements_ranked _ _ _ _ _ _ _ Hz Hfind) as [Hint Hranked].
  destruct (find_replacements_complete _ _ _ _ _ _ Hfind) as (found & Hsearch & Hreps).
  intros Hrun. exists found. split; [by rewrite Hsearch|].
  destruct reps as [|best reps].
  { injection Hrun as <- _. left. split; [|done]. intros r Hr Hup.
    eapply elem_of_nil, Hreps. by split. }
  destruct (audio_to_str best); [|done]. injection Hrun as <- _.
  right. exists best.
  destruct (proj1 (Hreps best) ltac:(by left)) as [Hbest Hup].
  split; [done|]. split; [done|]. split; [done|]. split; [apply Hint; by left|].
  intros r Hr Hr'.
  assert (r ∈ best :: reps) as [j Hj]%list_elem_of_lookup_1 by (by apply Hreps).
  destruct j as [|j].
  - injection Hj as <-. lia.
  - apply (Hranked 0%nat (S j) best r); [lia|done..].
Qed.

Lemma simple_mode_takes_the_highest_bitrate_witness :
  let best := track 13 "Song" "LP" "Artist A" "Various" "flac" 320 in
  best ∈ four_candidates ∧ upgrade_of ascii_only poor_track best ∧
  (192 < bitrate_of best)%Z ∧
  ∀ r, r ∈ four_candidates → upgrade_of ascii_only poor_track r →
       (bitrate_of r ≤ bitrate_of best)%Z.
Proof.
  intros best.
  destruct (simple_mode_takes_the_highest_bitrate ascii_only ∅ (finds four_candidates [])
              poor_track no_lists empty_world (replaced poor_track best no_lists)
              {| playlists := []; calls := [Searched (lit "Song") (lit "Artist")] |} 192)
    as (found & Hfound & [[_ Hnone]|(best' & Hin & Hup & Hls & Hz & Hmax)]).
  - reflexivity.
  - vm_compute. reflexivity.
  - vm_compute. reflexivity.
  - discriminate Hnone.
  - injection Hfound as <-. injection Hls as <-. done.
Defined.
